(** * bytom: the account UTXO indexer and the multisig script parameters

    A shallow embedding of
      - [protocol/vm/vmutil/script.go]  (module [vmutil]), and
      - [blockchain/account/indexer.go] (module [account]),
    together with the properties of the wallet synchronisation engine that
    are stated about them. *)

From Stdlib Require Import ZArith Lia Ascii.
From stdpp Require Import base option list strings gmap fin_maps.

(** Go's [string] and [[]byte] are both byte sequences; conversions between
    them copy the bytes, so one type serves for both. *)
Abbreviation bytes := string.

(* ===================================================================== *)
(** * protocol/vm/vmutil/script.go                                        *)
(* ===================================================================== *)

Module vmutil.

Local Open Scope Z_scope.

(** The two pre-defined errors, [errors.WithDetail] (which wraps an error
    with a message) and whatever [Builder.Build] may report. *)
Inductive error : Type :=
  | ErrBadValue
  | ErrMultisigFormat
  | WithDetail (e : error) (detail : string)
  | ErrBuilder (msg : string).

(** The opcodes of package [vm] that script.go names. *)
Inductive Op : Type :=
  | OP_FAIL | OP_DUP | OP_TOALTSTACK | OP_FROMALTSTACK | OP_SHA3
  | OP_CHECKMULTISIG | OP_VERIFY | OP_CHECKPREDICATE
  | OP_BLOCKHEIGHT | OP_GREATERTHAN.

(** What a [Builder] has been asked to emit, in order. *)
Inductive item : Type :=
  | IOp (op : Op)
  | IData (data : bytes)
  | IInt64 (n : Z).

Record Builder : Type := mkBuilder { items : list item }.

Definition NewBuilder : Builder := mkBuilder [].
Definition AddOp (b : Builder) (op : Op) : Builder := mkBuilder (items b ++ [IOp op]).
Definition AddData (b : Builder) (d : bytes) : Builder := mkBuilder (items b ++ [IData d]).
Definition AddInt64 (b : Builder) (n : Z) : Builder := mkBuilder (items b ++ [IInt64 n]).

(** [checkMultiSigParams]: the four guards, in the order of the source.
    [int64] values are integers in the signed 64-bit range; the function only
    compares them, so no wrap-around is involved. *)
Definition checkMultiSigParams (nrequired npubkeys : Z) : option error :=
  if nrequired <? 0 then Some (WithDetail ErrBadValue "negative quorum")
  else if npubkeys <? 0 then Some (WithDetail ErrBadValue "negative pubkey count")
  else if nrequired >? npubkeys then Some (WithDetail ErrBadValue "quorum too big")
  else if (nrequired =? 0) && (npubkeys >? 0)
       then Some (WithDetail ErrBadValue "quorum empty with non-empty pubkey list")
  else None.

(** [(b *Builder) addP2SPMultiSig]: the builder is returned when the
    parameters pass the check, the error otherwise (the builder is then
    untouched). [len(pubkeys)] and [nrequired] are converted to [int64],
    which preserves their values. *)
Definition addP2SPMultiSig (b : Builder) (pubkeys : list bytes) (nrequired : Z)
  : error + Builder :=
  match checkMultiSigParams nrequired (Z.of_nat (length pubkeys)) with
  | Some err => inl err
  | None =>
      let b := AddOp (AddOp b OP_DUP) OP_TOALTSTACK in
      let b := AddOp b OP_SHA3 in
      let b := foldl AddData b pubkeys in
      let b := AddInt64 b nrequired in
      let b := AddInt64 b (Z.of_nat (length pubkeys)) in
      let b := AddOp (AddOp b OP_CHECKMULTISIG) OP_VERIFY in
      let b := AddOp b OP_FROMALTSTACK in
      inr (AddOp (AddInt64 b 0) OP_CHECKPREDICATE)
  end.

Section Programs.

(** [Builder.Build] lives in builder.go; it assembles the items into a
    program or fails. *)
Variable Build : Builder → error + bytes.

Definition P2SPMultiSigProgram (pubkeys : list bytes) (nrequired : Z) : error + bytes :=
  match addP2SPMultiSig NewBuilder pubkeys nrequired with
  | inl err => inl err
  | inr builder => Build builder
  end.

Definition CoinbaseProgram (pubkeys : list bytes) (nrequired : Z) (height : Z)
  : error + bytes :=
  let builder := AddOp NewBuilder OP_BLOCKHEIGHT in
  let builder := AddInt64 builder height in
  let builder := AddOp builder OP_GREATERTHAN in
  let builder := AddOp builder OP_VERIFY in
  if nrequired =? 0 then Build builder
  else match addP2SPMultiSig builder pubkeys nrequired with
       | inl err => inl err
       | inr builder => Build builder
       end.

End Programs.

(** The combinations the parameter check refuses. *)
Definition bad_params (nrequired npubkeys : Z) : Prop :=
  nrequired < 0 ∨ npubkeys < 0 ∨ nrequired > npubkeys ∨ (nrequired = 0 ∧ npubkeys > 0).

End vmutil.

(* ===================================================================== *)
(** * blockchain/account/indexer.go                                       *)
(* ===================================================================== *)

(** ** The key-value store (tmlibs [db.DB] and [db.Batch])

    [Get] returns nil for a key that is absent; a batch collects [Set] and
    [Delete] operations and [Write] applies them, in order, in one atomic
    step. *)

Inductive BatchOp : Type :=
  | OpSet (key value : bytes)
  | OpDelete (key : bytes).

Abbreviation DB := (gmap string string).
Abbreviation Batch := (list BatchOp).

Definition DB_Get (d : DB) (key : bytes) : option bytes := d !! key.

Definition Batch_Set (batch : Batch) (key value : bytes) : Batch := batch ++ [OpSet key value].
Definition Batch_Delete (batch : Batch) (key : bytes) : Batch := batch ++ [OpDelete key].

Definition apply_op (d : DB) (op : BatchOp) : DB :=
  match op with
  | OpSet k v => <[k := v]> d
  | OpDelete k => delete k d
  end.

Definition Batch_Write (batch : Batch) (d : DB) : DB := foldl apply_op d batch.

(** The key an operation touches. *)
Definition op_key (op : BatchOp) : bytes :=
  match op with OpSet k _ => k | OpDelete k => k end.

(** ** Keys *)

Definition UTXOPreFix : string := "ACU:".
Definition walletkey : bytes := "walletInfo".
Definition accountUTXOKey (name : string) : bytes := UTXOPreFix +:+ name.

(** ** Integers: [uint64] and [uint32] with their wrap-around *)

Definition wrap64 (z : Z) : Z := (z mod 2 ^ 64)%Z.
Definition wrap32 (z : Z) : Z := (z mod 2 ^ 32)%Z.

(** ** Logging (logrus): the level and the message of each entry *)

Inductive Level : Type := LevelInfo | LevelWarn | LevelError.
Abbreviation Log := (list (Level * string)).

(** Errors: those of the libraries called, and [errors.Wrap]. *)
Inductive error : Type :=
  | ErrLib (msg : string)
  | ErrWrap (e : error) (msg : string).

Section Indexer.

(** [bc.Hash]: declared in protocol/bc; the indexer compares hashes, uses
    them as map keys and takes their [Bytes()]. *)
Context {Hash : Type} `{Countable Hash}.

(** ** Chain data (protocol/bc and protocol/bc/legacy), by the fields the
    indexer reads. Pointers that the indexer dereferences without a check
    are values here. *)

(** [bc.AssetAmount]; an asset identifier is a hash too. *)
Record AssetAmount : Type := mkAssetAmount { AssetId : Hash; Amount : Z }.

Record ValueSource : Type := mkValueSource {
  Ref : Hash; Value : AssetAmount; Position : Z }.

(** [bc.Output]; [ControlProgram_Code] is [ControlProgram.Code]. *)
Record Output : Type := mkOutput {
  Source : ValueSource; ControlProgram_Code : bytes; Data : Hash }.

Record Spend : Type := mkSpend { SpentOutputId : Hash }.

(** [bc.Entry]: the dynamic types a type assertion can meet. *)
Inductive Entry : Type :=
  | EOutput (o : Output)
  | ESpend (sp : Spend)
  | ERetirement
  | EIssuance
  | EMux.

(** [legacy.TxOutput]. *)
Record TxOutput : Type := mkTxOutput {
  out_AssetAmount : AssetAmount; out_ControlProgram : bytes }.

(** [legacy.Tx] with the embedded [bc.Tx]. *)
Record Tx : Type := mkTx {
  ID : Hash;
  InputIDs : list Hash;
  ResultIds : list Hash;
  Entries : gmap Hash Entry;
  Outputs : list TxOutput }.

Record Block : Type := mkBlock {
  Height : Z;
  PreviousBlockHash : Hash;
  Transactions : list Tx }.

(** Modelled from the spec: [bc.Tx.Spend], a method of package protocol/bc
    whose body is missing here. It resolves an input identifier to the
    entry of the transaction and succeeds when that entry is a spend,
    "excluding inputs that are not spends, e.g. issuance". [None] is the
    error result. *)
Definition Tx_Spend (tx : Tx) (id : Hash) : option Spend :=
  match Entries tx !! id with
  | Some (ESpend sp) => Some sp
  | _ => None
  end.

(** Modelled from the spec: [legacy.Tx.OutputID], a method of package
    protocol/bc/legacy whose body is missing here. It gives the "newly
    assigned identity" of the output at an index, that is the identifier of
    its entry, which [BuildAccountUTXOs] itself reads as [tx.ResultIds[j]]
    to look the entry up. [None] is the index-out-of-range panic. *)
Definition Tx_OutputID (tx : Tx) (j : nat) : option Hash := ResultIds tx !! j.

(** The type assertion of an entry of [tx.Entries] to a [bc.Output]
    pointer; a missing entry is the nil interface, for which the assertion
    fails too. *)
Definition asOutput (e : option Entry) : option Output :=
  match e with
  | Some (EOutput o) => Some o
  | _ => None
  end.

(** ** The indexer's own types *)

Record WalletInfo : Type := mkWalletInfo { wi_Height : Z; wi_Hash : Hash }.

(** [Wallet]: the database handle (here: its content) and the embedded
    [WalletInfo]. *)
Record Wallet : Type := mkWallet { w_DB : DB; w_info : WalletInfo }.

Record UTXO : Type := mkUTXO {
  u_OutputID : bytes;
  u_AssetID : bytes;
  u_Amount : Z;
  u_AccountID : string;
  u_ProgramIndex : Z;
  u_Program : bytes;
  u_SourceID : bytes;
  u_SourcePos : Z;
  u_RefData : bytes;
  u_Change : bool }.

Record rawOutput : Type := mkRawOutput {
  OutputID : Hash;
  ro_AssetAmount : AssetAmount;
  ControlProgram : bytes;
  txHash : Hash;
  outputIndex : Z;
  sourceID : Hash;
  sourcePos : Z;
  refData : Hash }.

Record accountOutput : Type := mkAccountOutput {
  ao_rawOutput : rawOutput;
  AccountID : string;
  keyIndex : Z;
  change : bool }.

(** [controlProgram] (accounts.go): the fields the indexer reads. *)
Record controlProgram : Type := mkControlProgram {
  cp_AccountID : string; cp_KeyIndex : Z; cp_Change : bool }.

(** [Manager]: the account database [m.db] and the wallet [m.wallet]. *)
Record Manager : Type := mkManager { m_db : DB; m_wallet : Wallet }.

(** ** What the indexer calls and is not part of it

    The JSON codec, the hash function, the key builders of accounts.go, the
    block hash, and the order in which Go's [range] visits a map (which the
    language leaves open). Decoding into an existing value returns the
    value after decoding together with the error, if any.
    [Batch_keeps_written] tells whether a batch still holds its operations
    after [Write]. *)
Class Externals : Type := {
  Hash_zero : Hash;
  Hash_Bytes : Hash → bytes;
  Block_Hash : Block → Hash;
  json_Marshal_WalletInfo : WalletInfo → error + bytes;
  json_Unmarshal_Wallet : bytes → Wallet → Wallet * option error;
  json_Marshal_UTXO : UTXO → error + bytes;
  json_Unmarshal_controlProgram : bytes → controlProgram → controlProgram * option error;
  sha3pool_Sum256 : bytes → bytes;
  accountCPKey : bytes → bytes;
  accountKey : string → bytes;
  range_order : gmap string (list rawOutput) → list string;
  Batch_keeps_written : bool;
}.

(** [protocol.Chain], as seen at one moment. *)
Record Chain : Type := mkChain {
  InMainChain : Z → Hash → bool;
  GetBlockByHash : Hash → error + Block;
  GetBlockByHeight : Z → error + Block }.

Context `{!Externals}.

Definition zeroWalletInfo : WalletInfo := mkWalletInfo 0 Hash_zero.

(** ** [GetWalletInfo] and [NewWallet]

    [GetWalletInfo] decodes into [&w], the wallet itself: the wallet after
    the call is returned next to the results. *)
Definition GetWalletInfo (w : Wallet) : Wallet * (WalletInfo * option error) :=
  let info := zeroWalletInfo in
  match DB_Get (w_DB w) walletkey with
  | None => (w, (info, None))
  | Some rawWallet =>
      match json_Unmarshal_Wallet rawWallet w with
      | (w', Some err) => (w', (info, Some err))
      | (w', None) => (w', (info, None))
      end
  end.

Definition NewWallet (db : DB) : Wallet * Log :=
  let w := mkWallet db zeroWalletInfo in
  let '(w, (walletInfo, err)) := GetWalletInfo w in
  let log := match err with
             | Some _ => [(LevelWarn, "get wallet info")]
             | None => []
             end in
  (mkWallet (w_DB w) (mkWalletInfo (wi_Height walletInfo) (wi_Hash walletInfo)), log).

Definition GetWalletHeight (w : Wallet) : Z := wi_Height (w_info w).

(** ** [commitWalletInfo] *)

(** The batch after [Write]: tmlibs leaves it to the implementation whether
    the written operations stay in the batch ([Batch_keeps_written]) or the
    batch is emptied. *)
Definition Batch_after_Write (batch : Batch) : Batch :=
  if Batch_keeps_written then batch else [].

Definition commitWalletInfo (w : Wallet) (batch : Batch) : Wallet * Batch * Log :=
  let info := mkWalletInfo (wi_Height (w_info w)) (wi_Hash (w_info w)) in
  match json_Marshal_WalletInfo info with
  | inl err => (w, batch, [(LevelError, "save wallet info")])
  | inr rawWallet =>
      let batch := Batch_Set batch walletkey rawWallet in
      (mkWallet (Batch_Write batch (w_DB w)) (w_info w), Batch_after_Write batch, [])
  end.

(** ** Loops

    [for_each] is a [for ... range] loop whose body may panic ([None]);
    [for_range] also passes the index. *)
Fixpoint for_range {A St : Type} (body : nat → A → St → option St)
    (j : nat) (l : list A) (s : St) : option St :=
  match l with
  | [] => Some s
  | x :: l' => s' ← body j x s; for_range body (S j) l' s'
  end.

Fixpoint for_each {A St : Type} (body : A → St → option St) (l : list A) (s : St)
  : option St :=
  match l with
  | [] => Some s
  | x :: l' => s' ← body x s; for_each body l' s'
  end.

(** ** [prevoutDBKeys] *)
Definition prevoutDBKeys (txs : list Tx) : list Hash :=
  flat_map (λ tx, omap (λ inpID, SpentOutputId <$> Tx_Spend tx inpID) (InputIDs tx)) txs.

(** ** [loadAccountInfo] *)

(** The first loop: group the outputs by control program. *)
Definition group_by_script (outs : list rawOutput) : gmap string (list rawOutput) :=
  foldl (λ outsByScript out,
           let scriptStr := ControlProgram out in
           <[scriptStr := default [] (outsByScript !! scriptStr) ++ [out]]> outsByScript)
        ∅ outs.

Definition annotate (cp : controlProgram) (out : rawOutput) : accountOutput :=
  mkAccountOutput out (cp_AccountID cp) (cp_KeyIndex cp) (cp_Change cp).

(** The body of the second loop. [cp] is declared outside the loop and
    decoded into at every round, so it travels with the result. *)
Definition loadAccountInfo_body (db : DB) (outsByScript : gmap string (list rawOutput))
    (acc : controlProgram * list accountOutput) (s : string)
  : controlProgram * list accountOutput :=
  let '(cp, result) := acc in
  let hash := sha3pool_Sum256 s in
  match DB_Get db (accountCPKey hash) with
  | None => (cp, result)
  | Some bytes =>
      match json_Unmarshal_controlProgram bytes cp with
      | (cp, Some err) => (cp, result)
      | (cp, None) =>
          match DB_Get db (accountKey (cp_AccountID cp)) with
          | None => (cp, result)
          | Some isExist =>
              (cp, result ++ map (annotate cp) (default [] (outsByScript !! s)))
          end
      end
  end.

Definition loadAccountInfo (m : Manager) (outs : list rawOutput) : list accountOutput :=
  let outsByScript := group_by_script outs in
  let cp := mkControlProgram EmptyString 0 false in
  snd (foldl (loadAccountInfo_body (m_db m) outsByScript) (cp, []) (range_order outsByScript)).

(** ** [upsertConfirmedAccountOutputs] *)

Definition utxo_of (out : accountOutput) : UTXO :=
  let raw := ao_rawOutput out in
  mkUTXO (Hash_Bytes (OutputID raw))
         (Hash_Bytes (AssetId (ro_AssetAmount raw)))
         (Amount (ro_AssetAmount raw))
         (AccountID out)
         (keyIndex out)
         (ControlProgram raw)
         (Hash_Bytes (sourceID raw))
         (sourcePos raw)
         (Hash_Bytes (refData raw))
         (change out).

(** The batch is staged into as the loop goes: on a marshalling error the
    operations staged so far stay in it. *)
Fixpoint upsertConfirmedAccountOutputs (outs : list accountOutput) (block : Block)
    (batch : Batch) : Batch * option error :=
  match outs with
  | [] => (batch, None)
  | out :: outs' =>
      let u := utxo_of out in
      match json_Marshal_UTXO u with
      | inl err => (batch, Some (ErrWrap err "failed marshal accountutxo"))
      | inr rawUTXO =>
          upsertConfirmedAccountOutputs outs' block
            (Batch_Set batch (accountUTXOKey (u_OutputID u)) rawUTXO)
      end
  end.

(** ** [ReverseAccountUTXOs] *)

(** One round of the loop over the inputs: the raw output of a spent output,
    or nothing when the round ends in [continue]. *)
Definition reverseOut (tx : Tx) (inpID : Hash) : option rawOutput :=
  sp ← Tx_Spend tx inpID;
  resOut ← asOutput (Entries tx !! SpentOutputId sp);
  Some (mkRawOutput (SpentOutputId sp)
                    (Value (Source resOut))
                    (ControlProgram_Code resOut)
                    (ID tx)
                    0
                    (Ref (Source resOut))
                    (Position (Source resOut))
                    (Data resOut)).

Definition reverseOuts (b : Block) : list rawOutput :=
  flat_map (λ tx, omap (reverseOut tx) (InputIDs tx)) (Transactions b).

(** One round of the loop that deletes the new UTXOs. *)
Definition deleteNew_body (tx : Tx) (j : nat) (_ : TxOutput) (batch : Batch) : option Batch :=
  resOutID ← ResultIds tx !! j;
  match asOutput (Entries tx !! resOutID) with
  | None => Some batch
  | Some _ => Some (Batch_Delete batch (accountUTXOKey (Hash_Bytes resOutID)))
  end.

(** [None] is a panic (an index out of range); otherwise the batch and what
    was logged. *)
Definition ReverseAccountUTXOs (m : Manager) (batch : Batch) (b : Block)
  : option (Batch * Log) :=
  let accOuts := loadAccountInfo m (reverseOuts b) in
  match upsertConfirmedAccountOutputs accOuts b batch with
  | (batch, Some err) =>
      Some (batch, [(LevelError, "reversing account spent and retire outputs")])
  | (batch, None) =>
      batch ← for_each (λ tx batch, for_range (deleteNew_body tx) 0 (Outputs tx) batch)
                       (Transactions b) batch;
      Some (batch, [])
  end.

(** ** [BuildAccountUTXOs] *)

(** One round of the loop that collects the new outputs. *)
Definition buildOut_body (tx : Tx) (j : nat) (out : TxOutput) (outs : list rawOutput)
  : option (list rawOutput) :=
  resOutID ← ResultIds tx !! j;
  match asOutput (Entries tx !! resOutID) with
  | None => Some outs
  | Some resOut =>
      outputID ← Tx_OutputID tx j;
      Some (outs ++ [mkRawOutput outputID
                                 (out_AssetAmount out)
                                 (out_ControlProgram out)
                                 (ID tx)
                                 (wrap32 (Z.of_nat j))
                                 (Ref (Source resOut))
                                 (Position (Source resOut))
                                 (Data resOut)])
  end.

Definition BuildAccountUTXOs (m : Manager) (batch : Batch) (b : Block)
  : option (Batch * Log) :=
  let delOutputIDs := prevoutDBKeys (Transactions b) in
  let batch := foldl (λ batch delOutputID,
                        Batch_Delete batch (accountUTXOKey (Hash_Bytes delOutputID)))
                     batch delOutputIDs in
  outs ← for_each (λ tx outs, for_range (buildOut_body tx) 0 (Outputs tx) outs)
                  (Transactions b) [];
  let accOuts := loadAccountInfo m outs in
  match upsertConfirmedAccountOutputs accOuts b batch with
  | (batch, Some err) => Some (batch, [(LevelError, "building new account outputs")])
  | (batch, None) => Some (batch, [])
  end.

(** ** [WalletUpdate]

    The loop never ends by itself and the chain it questions changes under
    it, so it is a machine: a state holds the manager, the batch, the log
    and the place in the function; a step runs from one call of the chain
    to the next and is given the chain as it is at that moment. *)

Inductive PC : Type :=
  | pcLoop                       (* the test of the [for] at LOOP *)
  | pcGetBlockByHash             (* inside the rollback loop *)
  | pcCommit                     (* the commit that ends the rollback loop *)
  | pcGetBlockByHeight           (* the first look for the next block *)
  | pcBlockWaiter                (* woken by the waiter: the second look *)
  | pcLinkage (block : Block)    (* the test of [PreviousBlockHash] *)
  | pcReturned
  | pcPanicked.

Record State : Type := mkState {
  st_m : Manager; st_batch : Batch; st_log : Log; st_pc : PC }.

Definition checkpoint (s : State) : WalletInfo := w_info (m_wallet (st_m s)).
Definition persisted (s : State) : DB := w_DB (m_wallet (st_m s)).

Definition set_checkpoint (m : Manager) (height : Z) (hash : Hash) : Manager :=
  mkManager (m_db m) (mkWallet (w_DB (m_wallet m)) (mkWalletInfo height hash)).

(** What a loop has made of its state when it stops: at its end, or at
    the round whose body panics. *)
Fixpoint for_range_reached {A St : Type} (body : nat → A → St → option St)
    (j : nat) (l : list A) (s : St) : St :=
  match l with
  | [] => s
  | x :: l' =>
      match body j x s with
      | None => s
      | Some s' => for_range_reached body (S j) l' s'
      end
  end.

Fixpoint for_each_reached {A St : Type} (body : A → St → option St)
    (reached : A → St → St) (l : list A) (s : St) : St :=
  match l with
  | [] => s
  | x :: l' =>
      match body x s with
      | None => reached x s
      | Some s' => for_each_reached body reached l' s'
      end
  end.

(** The batch when [ReverseAccountUTXOs] panics. The panic is an index out
    of range in the loop that deletes the new UTXOs: the records of the
    spent outputs are staged, and so are the deletes of the rounds before
    the panic. *)
Definition ReverseAccountUTXOs_panicked (m : Manager) (batch : Batch) (b : Block) : Batch :=
  let accOuts := loadAccountInfo m (reverseOuts b) in
  let batch := fst (upsertConfirmedAccountOutputs accOuts b batch) in
  for_each_reached (λ tx batch, for_range (deleteNew_body tx) 0 (Outputs tx) batch)
                   (λ tx batch, for_range_reached (deleteNew_body tx) 0 (Outputs tx) batch)
                   (Transactions b) batch.

(** The batch when [BuildAccountUTXOs] panics. The panic is an index out of
    range in the loop that collects the new outputs: the deletes of the
    spent outputs are staged, nothing else is yet. *)
Definition BuildAccountUTXOs_panicked (batch : Batch) (b : Block) : Batch :=
  foldl (λ batch delOutputID,
           Batch_Delete batch (accountUTXOKey (Hash_Bytes delOutputID)))
        batch (prevoutDBKeys (Transactions b)).

(** The body of the rollback loop once the block is there. [None] is the
    panic of [ReverseAccountUTXOs], which comes before the checkpoint is
    touched. *)
Definition rollbackBlock (m : Manager) (batch : Batch) (block : Block)
  : option (Manager * Batch * Log) :=
  '(batch, log) ← ReverseAccountUTXOs m batch block;
  Some (set_checkpoint m (wrap64 (Height block - 1)) (PreviousBlockHash block),
        batch,
        log ++ [(LevelInfo, "start rollback this block")]).

(** The branch taken when the block extends the checkpoint. [None] is the
    panic of [BuildAccountUTXOs]: the checkpoint in memory is the block's by
    then, which [step] records in the state it stops in. *)
Definition applyBlock (m : Manager) (batch : Batch) (block : Block)
  : option (Manager * Batch * Log) :=
  let m := set_checkpoint m (Height block) (Block_Hash block) in
  '(batch, log) ← BuildAccountUTXOs m batch block;
  let '(w, batch, log') := commitWalletInfo (m_wallet m) batch in
  Some (mkManager (m_db m) w, batch, log ++ log').

Definition step (c : Chain) (s : State) : State :=
  let m := st_m s in
  let info := w_info (m_wallet m) in
  match st_pc s with
  | pcLoop =>
      if InMainChain c (wi_Height info) (wi_Hash info)
      then mkState m (st_batch s) (st_log s) pcCommit
      else mkState m (st_batch s) (st_log s) pcGetBlockByHash
  | pcGetBlockByHash =>
      match GetBlockByHash c (wi_Hash info) with
      | inl err =>
          mkState m (st_batch s) (st_log s ++ [(LevelError, "get block by hash")]) pcReturned
      | inr block =>
          match rollbackBlock m (st_batch s) block with
          | None =>
              mkState m (ReverseAccountUTXOs_panicked m (st_batch s) block) (st_log s)
                      pcPanicked
          | Some (m, batch, log) => mkState m batch (st_log s ++ log) pcLoop
          end
      end
  | pcCommit =>
      let '(w, batch, log) := commitWalletInfo (m_wallet m) (st_batch s) in
      mkState (mkManager (m_db m) w) batch (st_log s ++ log) pcGetBlockByHeight
  | pcGetBlockByHeight =>
      match GetBlockByHeight c (wrap64 (wi_Height info + 1)) with
      | inl _ => mkState m (st_batch s) (st_log s) pcBlockWaiter
      | inr block => mkState m (st_batch s) (st_log s) (pcLinkage block)
      end
  | pcBlockWaiter =>
      match GetBlockByHeight c (wrap64 (wi_Height info + 1)) with
      | inl err =>
          mkState m (st_batch s) (st_log s ++ [(LevelError, "wallet get block by height")])
                  pcReturned
      | inr block => mkState m (st_batch s) (st_log s) (pcLinkage block)
      end
  | pcLinkage block =>
      if decide (PreviousBlockHash block = wi_Hash info)
      then match applyBlock m (st_batch s) block with
           | None =>
               mkState (set_checkpoint m (Height block) (Block_Hash block))
                       (BuildAccountUTXOs_panicked (st_batch s) block) (st_log s)
                       pcPanicked
           | Some (m, batch, log) => mkState m batch (st_log s ++ log) pcLoop
           end
      else mkState m (st_batch s) (st_log s) pcLoop
  | pcReturned => s
  | pcPanicked => s
  end.

(** An execution: the chain as it is at each step, and the state after [n]
    steps. *)
Fixpoint exec (world : nat → Chain) (n : nat) (s : State) : State :=
  match n with
  | O => s
  | S k => step (world k) (exec world k s)
  end.

(** [WalletUpdate] starts with a new batch at LOOP. *)
Definition WalletUpdate_start (m : Manager) : State := mkState m [] [] pcLoop.

(** The steps that call [commitWalletInfo]. *)
Definition commits (pc : PC) : bool :=
  match pc with
  | pcCommit | pcLinkage _ => true
  | _ => false
  end.

(** ** Notions used to state the properties *)

(** The key of the UTXO record of an output. *)
Definition utxo_key (id : Hash) : bytes := accountUTXOKey (Hash_Bytes id).

(** The entry behind a result identifier is a spendable output. *)
Definition is_output (tx : Tx) (id : Hash) : Prop := is_Some (asOutput (Entries tx !! id)).

(** The identifiers of the outputs a transaction, a block creates: the
    result identifiers, one per element of [Outputs], that resolve to an
    output entry. *)
Definition tx_created_ids (tx : Tx) : list Hash :=
  filter (is_output tx) (take (length (Outputs tx)) (ResultIds tx)).

Definition created_ids (b : Block) : list Hash :=
  flat_map tx_created_ids (Transactions b).

(** Every output of every transaction has a result identifier: the loops
    over [tx.Outputs] index [tx.ResultIds] within range. *)
Definition indexes_in_range (b : Block) : Prop :=
  Forall (λ tx, length (Outputs tx) ≤ length (ResultIds tx)) (Transactions b).

(** A raw output that [BuildAccountUTXOs] makes of the output at some index
    of a transaction: the entry behind the result identifier at that index
    is an output entry, and the fields come from the two. *)
Definition created_from (tx : Tx) (ro : rawOutput) : Prop :=
  ∃ (j : nat) (out : TxOutput) (resOut : Output),
    Outputs tx !! j = Some out
    ∧ ResultIds tx !! j = Some (OutputID ro)
    ∧ Entries tx !! OutputID ro = Some (EOutput resOut)
    ∧ ro = mkRawOutput (OutputID ro) (out_AssetAmount out) (out_ControlProgram out)
                       (ID tx) (wrap32 (Z.of_nat j))
                       (Ref (Source resOut)) (Position (Source resOut)) (Data resOut).

(** The [Set] operations for a list of keys and values. *)
Definition sets_of (kvs : list (bytes * bytes)) : Batch :=
  (λ kv, OpSet kv.1 kv.2) <$> kvs.

(** What [upsertConfirmedAccountOutputs] stages for an annotated output. *)
Definition staged_for (ao : accountOutput) (kv : bytes * bytes) : Prop :=
  kv.1 = utxo_key (OutputID (ao_rawOutput ao)) ∧ json_Marshal_UTXO (utxo_of ao) = inr kv.2.

(** The account annotation as the specification words it: the record of
    the registry under the content hash of the control program, if there is
    one and it decodes, and if its account exists locally. *)
Definition registry_record (db : DB) (program : bytes) : option controlProgram :=
  raw ← db !! accountCPKey (sha3pool_Sum256 program);
  match json_Unmarshal_controlProgram raw (mkControlProgram EmptyString 0 false) with
  | (cp, None) => Some cp
  | (_, Some _) => None
  end.

Definition annotate_spec (db : DB) (out : rawOutput) : option accountOutput :=
  cp ← registry_record db (ControlProgram out);
  _ ← db !! accountKey (cp_AccountID cp);
  Some (mkAccountOutput out (cp_AccountID cp) (cp_KeyIndex cp) (cp_Change cp)).

(** The account a program is registered to, when the account exists. *)
Definition registered_account (db : DB) (program : bytes) : option controlProgram :=
  cp ← registry_record db program;
  _ ← db !! accountKey (cp_AccountID cp);
  Some cp.

(** The annotations of the outputs of all groups of a map, group by
    group. *)
Definition grouped (db : DB) (g : gmap string (list rawOutput)) : list accountOutput :=
  flat_map (λ kv : string * list rawOutput, omap (annotate_spec db) kv.2)
           (map_to_list g).

(** The records of the registry name all their fields: when one decodes,
    it decodes to the same record whatever the variable decoded into held
    before. *)
Definition records_complete (db : DB) : Prop :=
  ∀ key raw cp1 cp2, db !! key = Some raw →
    snd (json_Unmarshal_controlProgram raw cp1) = None →
    json_Unmarshal_controlProgram raw cp2 = json_Unmarshal_controlProgram raw cp1.

(** [range] visits every key of a map once, in some order. *)
Definition range_visits_each_key_once : Prop :=
  ∀ m : gmap string (list rawOutput), range_order m ≡ₚ (map_to_list m).*1.

End Indexer.

(** The types take the type of hashes as an explicit argument. *)
Arguments AssetAmount Hash : clear implicits.
Arguments ValueSource Hash : clear implicits.
Arguments Output Hash : clear implicits.
Arguments Spend Hash : clear implicits.
Arguments Entry Hash : clear implicits.
Arguments TxOutput Hash : clear implicits.
Arguments WalletInfo Hash : clear implicits.
Arguments Wallet Hash : clear implicits.
Arguments rawOutput Hash : clear implicits.
Arguments accountOutput Hash : clear implicits.
Arguments Manager Hash : clear implicits.
Arguments Tx Hash {_ _}.
Arguments Block Hash {_ _}.
Arguments Chain Hash {_ _}.
Arguments PC Hash {_ _}.
Arguments State Hash {_ _}.
Arguments Externals Hash {_ _}.

(* ===================================================================== *)
(** * A small concrete world

    Hashes are strings, the block hash strings the parent hash and the
    transaction identifiers together, and the codecs are toy ones: a wallet
    record is the height in strokes, an at-sign and the hash; a control
    program record is N or C (change), the key index in strokes, an at-sign
    and the account. *)
(* ===================================================================== *)

Fixpoint ex_strokes (n : nat) : string :=
  match n with O => EmptyString | S k => String "I"%char (ex_strokes k) end.

Fixpoint ex_unstrokes (raw : string) (n : Z) : option (Z * string) :=
  match raw with
  | String "I"%char rest => ex_unstrokes rest (n + 1)%Z
  | String "@"%char rest => Some (n, rest)
  | _ => None
  end.

Definition ex_Marshal_WalletInfo (info : WalletInfo string) : error + bytes :=
  inr (ex_strokes (Z.to_nat (wi_Height info)) +:+ "@" +:+ wi_Hash info).

Definition ex_Unmarshal_Wallet (raw : bytes) (w : Wallet string)
  : Wallet string * option error :=
  match ex_unstrokes raw 0 with
  | Some (h, hash) => (mkWallet (w_DB w) (mkWalletInfo h hash), None)
  | None => (w, Some (ErrLib "invalid character"))
  end.

Definition ex_Marshal_UTXO (u : UTXO) : error + bytes :=
  inr (u_OutputID u +:+ "/" +:+ u_AssetID u +:+ "/" +:+ ex_strokes (Z.to_nat (u_Amount u))
       +:+ "/" +:+ u_AccountID u +:+ "/" +:+ ex_strokes (Z.to_nat (u_ProgramIndex u))
       +:+ "/" +:+ u_Program u +:+ "/" +:+ u_SourceID u
       +:+ "/" +:+ ex_strokes (Z.to_nat (u_SourcePos u))
       +:+ "/" +:+ u_RefData u +:+ "/" +:+ (if u_Change u then "C" else "N")).

Definition ex_Unmarshal_controlProgram (raw : bytes) (cp : controlProgram)
  : controlProgram * option error :=
  match raw with
  | String c rest =>
      match ex_unstrokes rest 0 with
      | Some (k, acc) =>
          if decide (c = "C"%char) then (mkControlProgram acc k true, None)
          else if decide (c = "N"%char) then (mkControlProgram acc k false, None)
          else (cp, Some (ErrLib "invalid character"))
      | None => (cp, Some (ErrLib "invalid character"))
      end
  | _ => (cp, Some (ErrLib "unexpected end of JSON input"))
  end.

Definition ex_Block_Hash (b : Block string) : string :=
  "B(" +:+ PreviousBlockHash b +:+ ")" +:+ foldr (λ tx acc, ID tx +:+ acc) EmptyString (Transactions b).

#[export] Instance ex_Externals : Externals string := {|
  Hash_zero := EmptyString;
  Hash_Bytes := λ h, h;
  Block_Hash := ex_Block_Hash;
  json_Marshal_WalletInfo := ex_Marshal_WalletInfo;
  json_Unmarshal_Wallet := ex_Unmarshal_Wallet;
  json_Marshal_UTXO := ex_Marshal_UTXO;
  json_Unmarshal_controlProgram := ex_Unmarshal_controlProgram;
  sha3pool_Sum256 := λ s, "#" +:+ s;
  accountCPKey := λ h, "ACP:" +:+ h;
  accountKey := λ id, "ACC:" +:+ id;
  range_order := λ m, (map_to_list m).*1;
  Batch_keeps_written := true;
|}.

(** The account database: program [prog1] belongs to account [acc1]. *)
Definition ex_accounts : DB :=
  <["ACP:#prog1" := "NI@acc1"]> (<["ACC:acc1" := "{}"]> ∅).

Definition ex_asset (amount : Z) : AssetAmount string := mkAssetAmount "BTM" amount.

Definition ex_O1 : Output string :=
  mkOutput (mkValueSource "M1" (ex_asset 100) 0) "prog1" EmptyString.
Definition ex_O2 : Output string :=
  mkOutput (mkValueSource "M2" (ex_asset 60) 0) "prog1" EmptyString.
Definition ex_O3 : Output string :=
  mkOutput (mkValueSource "M2" (ex_asset 40) 1) "prog9" EmptyString.

(** Block 1 creates O1 for [acc1]. *)
Definition ex_tx1 : Tx string :=
  mkTx "T1" [] ["O1"] (<["O1" := EOutput ex_O1]> ∅) [mkTxOutput (ex_asset 100) "prog1"].
Definition ex_block1 : Block string := mkBlock 1 EmptyString [ex_tx1].

(** Block 2 spends O1 and creates O2 for [acc1] and O3 for a program that
    is not registered. *)
Definition ex_tx2 : Tx string :=
  mkTx "T2" ["S1"] ["O2"; "O3"]
       (<["S1" := ESpend (mkSpend "O1")]>
          (<["O1" := EOutput ex_O1]>
             (<["O2" := EOutput ex_O2]> (<["O3" := EOutput ex_O3]> ∅))))
       [mkTxOutput (ex_asset 60) "prog1"; mkTxOutput (ex_asset 40) "prog9"].
Definition ex_block2 : Block string := mkBlock 2 (ex_Block_Hash ex_block1) [ex_tx2].

(** A block at height 1 in which the second transaction spends the output
    of the first and retires the value. *)
Definition ex_tx_burn : Tx string :=
  mkTx "T3" ["S1"] ["R1"]
       (<["S1" := ESpend (mkSpend "O1")]>
          (<["O1" := EOutput ex_O1]> (<["R1" := ERetirement]> ∅)))
       [mkTxOutput (ex_asset 100) "j"].
Definition ex_block_same : Block string := mkBlock 1 EmptyString [ex_tx1; ex_tx_burn].

(** A chain that holds the given blocks on top of a base position. *)
Definition ex_chain_on (base : WalletInfo string) (blocks : list (Block string))
  : Chain string :=
  mkChain
    (λ h hash, bool_decide (h = wi_Height base ∧ hash = wi_Hash base)
               || bool_decide (Exists (λ b, Height b = h ∧ ex_Block_Hash b = hash) blocks))
    (λ hash, match list_find (λ b, ex_Block_Hash b = hash) blocks with
             | Some (_, b) => inr b
             | None => inl (ErrLib "block not found")
             end)
    (λ h, match list_find (λ b, Height b = h) blocks with
          | Some (_, b) => inr b
          | None => inl (ErrLib "block not found")
          end).

(** The same on top of the genesis position (0, zero hash). *)
Definition ex_chain (blocks : list (Block string)) : Chain string :=
  ex_chain_on (mkWalletInfo 0 EmptyString) blocks.

(** [WalletUpdate] on a new wallet over an empty database. *)
Definition ex_start : State string :=
  WalletUpdate_start (mkManager ex_accounts (fst (NewWallet ∅))).

(** The manager once block 1 is indexed. *)
Definition ex_m1 : Manager string :=
  st_m (exec (λ _, ex_chain [ex_block1]) 4 ex_start).

(** A wallet whose checkpoint (5, X) is unknown to the chain. *)
Definition ex_lost : State string :=
  WalletUpdate_start
    (mkManager ex_accounts (mkWallet ∅ (mkWalletInfo 5 (String "X"%char EmptyString)))).

(** A wallet at (12, H12). *)
Definition ex_at12 : State string :=
  WalletUpdate_start (mkManager ex_accounts (mkWallet ∅ (mkWalletInfo 12 "H12"))).

(** A race: the wallet is at (12, H12), which the chain confirms, but the
    block the chain then gives for height 13 has another parent. *)
Definition ex_block_race : Block string := mkBlock 13 (String "Z"%char EmptyString) [].
Definition ex_world_race : nat → Chain string :=
  λ _, ex_chain_on (mkWalletInfo 12 "H12") [ex_block_race].

(** A database whose wallet record decodes to the checkpoint (2, h2). *)
Definition ex_db_h2 : DB := <[walletkey := "II@h2"]> ∅.


(* ===================================================================== *)
(** * script.go: [ParseP2SPMultiSigProgram]                               *)
(* ===================================================================== *)

Module vmparse.

Import vmutil.
Local Open Scope Z_scope.

(** [vm.Instruction]: the parser reads the [Data] of an instruction only. *)
Record Instruction : Type := mkInstruction { inst_Op : Z; inst_Data : bytes }.

(** The errors the function can return: [vm.ErrShortProgram], whatever
    [vm.ParseProgram] and [vm.AsInt64] report, and the errors of
    [checkMultiSigParams]. *)
Inductive perror : Type :=
  | ErrShortProgram
  | ErrVM (msg : string)
  | ErrParams (e : error).

(** [pops[i]] for an [int] index: out of range is a panic ([None]). *)
Definition index (pops : list Instruction) (i : Z) : option Instruction :=
  if i <? 0 then None else pops !! Z.to_nat i.

Section Parse.

(** Package [vm] and the constant [ed25519.PublicKeySize], which script.go
    uses and does not define. *)
Variable ParseProgram : bytes → perror + list Instruction.
Variable AsInt64 : bytes → perror + Z.
Variable PublicKeySize : nat.

(** A key of the size of a public key. *)
Definition key_size_ok (k : bytes) : Prop := String.length k = PublicKeySize.

#[export] Instance key_size_ok_dec (k : bytes) : Decision (key_size_ok k) :=
  decide (String.length k = PublicKeySize).

(** The loop over the public keys, [todo] rounds from index [i]. The result
    is the list of keys when the loop runs to its end, nothing when a key
    of the wrong size makes the function return from inside the loop, and a
    panic ([None]) on an index out of range. *)
Fixpoint collect_pubkeys (pops : list Instruction) (i : Z) (todo : nat)
    (pubkeys : list bytes) : option (option (list bytes)) :=
  match todo with
  | O => Some (Some pubkeys)
  | S todo' =>
      inst ← index pops i;
      if decide (String.length (inst_Data inst) ≠ PublicKeySize)
      then Some None
      else collect_pubkeys pops (i + 1) todo' (pubkeys ++ [inst_Data inst])
  end.

(** [ParseP2SPMultiSigProgram]: the three results of the Go function
    (keys, quorum, error), or [None] for a panic. The keys are a slice, and
    Go tells the nil slice from a slice that [make] allocated, also an empty
    one: the keys are [None] where the function returns nil and [Some] of
    the elements where it returns the slice it made. [int] is taken to be
    64 bits wide, so that the conversions between [int] and [int64] keep
    the value. In the loop the function returns the variable [err], which
    holds the nil result of [checkMultiSigParams] at that point. *)
Definition ParseP2SPMultiSigProgram (program : bytes)
  : option (option (list bytes) * Z * option perror) :=
  match ParseProgram program with
  | inl err => Some (None, 0, Some err)
  | inr pops =>
      let len := Z.of_nat (length pops) in
      if len <? 11 then Some (None, 0, Some ErrShortProgram)
      else
        inst ← index pops (len - 6);
        match AsInt64 (inst_Data inst) with
        | inl err => Some (None, 0, Some err)
        | inr npubkeys =>
            if npubkeys >? len - 10 then Some (None, 0, Some ErrShortProgram)
            else
              inst ← index pops (len - 7);
              match AsInt64 (inst_Data inst) with
              | inl err => Some (None, 0, Some err)
              | inr nrequired =>
                  match checkMultiSigParams nrequired npubkeys with
                  | Some err => Some (None, 0, Some (ErrParams err))
                  | None =>
                      let firstPubkeyIndex := len - 7 - npubkeys in
                      if npubkeys <? 0 then None
                      else
                        r ← collect_pubkeys pops firstPubkeyIndex (Z.to_nat npubkeys) [];
                        match r with
                        | None => Some (None, 0, None)
                        | Some pubkeys => Some (Some pubkeys, nrequired, None)
                        end
                  end
              end
        end
  end.

End Parse.

(** [uint64] to [int64]: the same bits, read as two's complement. *)
Definition int64_of_uint64 (h : Z) : Z := if h <? 2 ^ 63 then h else h - 2 ^ 64.

(** The items [addP2SPMultiSig] adds to a builder. *)
Definition multisig_items (pubkeys : list bytes) (nrequired : Z) : list item :=
  [IOp OP_DUP; IOp OP_TOALTSTACK; IOp OP_SHA3]
  ++ (IData <$> pubkeys)
  ++ [IInt64 nrequired; IInt64 (Z.of_nat (length pubkeys));
      IOp OP_CHECKMULTISIG; IOp OP_VERIFY; IOp OP_FROMALTSTACK;
      IInt64 0; IOp OP_CHECKPREDICATE].

(** A toy assembler for the examples: an item is a tag (o, d or i) and a
    payload, closed by a slash; an integer is written in strokes. *)
Definition toy_item (it : item) : string :=
  match it with
  | IOp _ => "o/"
  | IData d => "d" +:+ d +:+ "/"
  | IInt64 n => "i" +:+ ex_strokes (Z.to_nat n) +:+ "/"
  end.

Definition toy_Build (b : Builder) : error + bytes :=
  inr (foldr (λ it acc, toy_item it +:+ acc) EmptyString (items b)).

Definition toy_inst (it : item) : Instruction :=
  match it with
  | IOp _ => mkInstruction 1 EmptyString
  | IData d => mkInstruction 0 d
  | IInt64 n => mkInstruction 0 (ex_strokes (Z.to_nat n))
  end.

(** The toy disassembler: the tokens between the slashes. *)
Fixpoint toy_tokens (s : string) (cur : string) : list string :=
  match s with
  | EmptyString => []
  | String c rest =>
      if decide (c = "/"%char) then cur :: toy_tokens rest EmptyString
      else toy_tokens rest (cur +:+ String c EmptyString)
  end.

Definition toy_ParseProgram (program : bytes) : perror + list Instruction :=
  inr ((λ tok, match tok with
               | String "o"%char _ => mkInstruction 1 EmptyString
               | String _ payload => mkInstruction 0 payload
               | EmptyString => mkInstruction 0 EmptyString
               end) <$> toy_tokens program EmptyString).

Definition toy_AsInt64 (data : bytes) : perror + Z :=
  inr (Z.of_nat (String.length data)).

(** Two keys of 32 bytes. *)
Definition toy_key1 : bytes := "0123456789abcdef0123456789abcdef".
Definition toy_key2 : bytes := "fedcba9876543210fedcba9876543210".

End vmparse.

(* ===================================================================== *)
(** * indexer.go: further notions and [Annotated]                         *)
(* ===================================================================== *)

Section IndexerMore.
Context {Hash : Type} `{Countable Hash} {E : Externals Hash}.

(** The raw outputs that the second loop of [BuildAccountUTXOs] collects
    ([None]: the loop panics). *)
Definition createdOuts (b : Block Hash) : option (list (rawOutput Hash)) :=
  for_each (λ tx outs, for_range (buildOut_body tx) 0 (Outputs tx) outs)
           (Transactions b) [].

(** The key under which an annotated output is stored. *)
Definition ao_key (ao : accountOutput Hash) : bytes :=
  utxo_key (OutputID (ao_rawOutput ao)).

(** The places of [WalletUpdate] at which it looks for the next block or
    has it in hand. *)
Definition looking_forward (pc : PC Hash) : bool :=
  match pc with
  | pcGetBlockByHeight | pcBlockWaiter | pcLinkage _ => true
  | _ => false
  end.

(** The checkpoint record in the database is the checkpoint in memory, in
    case that marshals. *)
Definition record_is_checkpoint (s : State Hash) : Prop :=
  ∀ raw, json_Marshal_WalletInfo (checkpoint s) = inr raw →
         persisted s !! walletkey = Some raw.

(** The places at which [WalletUpdate] has ended. *)
Definition ended (pc : PC Hash) : bool :=
  match pc with
  | pcReturned | pcPanicked => true
  | _ => false
  end.

End IndexerMore.

(** ** [Annotated] and [indexAnnotatedAccount]

    [Account] (accounts.go) embeds a [signers.Signer]; [XPub] and the tags
    are kept abstract, with what the function calls on them. *)
Section Annotated.

Variable XPub : Type.
Variable Tags : Type.

Record Account : Type := mkAccount {
  acc_ID : string;
  acc_Alias : string;
  acc_Quorum : Z;
  acc_KeyIndex : Z;
  acc_XPubs : list XPub;
  acc_Tags : Tags }.

(** [query.AccountKey] and [query.AnnotatedAccount]. *)
Record AccountKey : Type := mkAccountKey {
  RootXPub : XPub;
  AccountXPub : XPub;
  AccountDerivationPath : list bytes }.

Record AnnotatedAccount : Type := mkAnnotatedAccount {
  aa_ID : string;
  aa_Alias : string;
  aa_Keys : list AccountKey;
  aa_Quorum : Z;
  aa_Tags : bytes }.

Variable json_Marshal_Tags : Tags → error + bytes.
(** [signers.Path(a.Signer, signers.AccountKeySpace)]. *)
Variable signers_Path : Account → list bytes.
Variable XPub_Derive : XPub → list bytes → XPub.

Definition emptyJSONObject : bytes := "{}".

Definition Annotated (a : Account) : error + AnnotatedAccount :=
  match json_Marshal_Tags (acc_Tags a) with
  | inl err => inl err
  | inr tags =>
      let aaTags := if decide (0 < String.length tags)%nat then tags else emptyJSONObject in
      let path := signers_Path a in
      let jsonPath := foldl (λ jsonPath p, jsonPath ++ [p]) [] path in
      let keys := foldl (λ keys xpub,
                           keys ++ [mkAccountKey xpub (XPub_Derive xpub path) jsonPath])
                        [] (acc_XPubs a) in
      inr (mkAnnotatedAccount (acc_ID a) (acc_Alias a) keys (acc_Quorum a) aaTags)
  end.

(** [indexAnnotatedAccount]: [indexer] is the [Saver] of the manager, if
    any; the result is the error returned, and the accounts handed to the
    saver. *)
Definition indexAnnotatedAccount
    (indexer : option (AnnotatedAccount → option error)) (a : Account)
  : option error * list AnnotatedAccount :=
  match indexer with
  | None => (None, [])
  | Some SaveAnnotatedAccount =>
      match Annotated a with
      | inl err => (Some err, [])
      | inr aa => (SaveAnnotatedAccount aa, [aa])
      end
  end.

End Annotated.

(** A block whose transaction has an output without a result identifier. *)
Definition ex_tx_short : Tx string :=
  mkTx "T9" [] [] ∅ [mkTxOutput (ex_asset 1) "prog1"].
Definition ex_block_short : Block string := mkBlock 1 EmptyString [ex_tx_short].

(** The annotated output of O1. *)
Definition ex_ao1 : accountOutput string :=
  mkAccountOutput (mkRawOutput "O1" (ex_asset 100) "prog1" "T1" 0 "M1" 0 EmptyString)
                  "acc1" 1 false.

(** The toy program for two keys and quorum 1. *)
Definition toy_program : bytes :=
  match vmparse.toy_Build
          (vmutil.mkBuilder (vmparse.multisig_items [vmparse.toy_key1; vmparse.toy_key2] 1))
  with
  | inr program => program
  | inl _ => EmptyString
  end.

(** A toy program of eleven instructions without data. *)
Definition toy_eleven : bytes := "o/o/o/o/o/o/o/o/o/o/o/".

(** A chain that has left block 1 behind: only the genesis position is on
    the main chain, block 1 can still be fetched by its hash. *)
Definition ex_chain_fork : Chain string :=
  mkChain (InMainChain (ex_chain []))
          (GetBlockByHash (ex_chain [ex_block1]))
          (GetBlockByHeight (ex_chain [])).

(** A wallet with one staged operation. *)
Definition ex_wallet_h : Wallet string := mkWallet ∅ (mkWalletInfo 1 "h").
Definition ex_batch_h : Batch := [OpSet "ACU:x" "y"].

(* ===================================================================== *)
(** * A registry whose records leave fields out

    Go's [json.Unmarshal] sets the fields that a record names and leaves
    the other fields of the value it decodes into as they are. The codec
    of control program records of this world does so too: a record is the
    change flag (N or C, or an underscore when the record does not name
    it), the key index in strokes (or an underscore when the record does
    not name it), an at-sign and the account. [range] visits the keys of a
    map in the order of [map_to_list] or in the reverse order; a map of two
    keys has no other. *)
(* ===================================================================== *)








(* ===================================================================== *)
(** * Properties of script.go                                             *)
(* ===================================================================== *)

Section ScriptProperties.
Import vmutil.
Local Open Scope Z_scope.

Lemma checkMultiSigParams_error_iff nrequired npubkeys :
  is_Some (checkMultiSigParams nrequired npubkeys) ↔ bad_params nrequired npubkeys.
Proof.
  unfold checkMultiSigParams, bad_params.
  destruct (Z.ltb_spec nrequired 0).
  { split; [intros _; lia | intros _; eauto]. }
  destruct (Z.ltb_spec npubkeys 0).
  { split; [intros _; lia | intros _; eauto]. }
  destruct (Z.gtb_spec nrequired npubkeys).
  { split; [intros _; lia | intros _; eauto]. }
  destruct (Z.eqb_spec nrequired 0), (Z.gtb_spec npubkeys 0); simpl.
  all: split; [intros [x Hx]; try discriminate; lia | intros Hbad; try (by eauto); lia].
Qed.

Lemma checkMultiSigParams_error_root nrequired npubkeys err :
  checkMultiSigParams nrequired npubkeys = Some err → ∃ d, err = WithDetail ErrBadValue d.
Proof.
  unfold checkMultiSigParams.
  repeat case_match; intros [= <-]; eauto.
Qed.

(** C10. [checkMultiSigParams] returns an error exactly when the quorum is
    negative, the key count is negative, the quorum exceeds the key count, or
    the quorum is zero with a non-empty key list; [P2SPMultiSigProgram]
    returns that very error (a detailed [ErrBadValue]) for exactly these
    combinations of [nrequired] and [len(pubkeys)] and hands the assembled
    builder to [Build] for all others; with a zero quorum the only
    combination that passes is the empty key list. *)
Theorem C10_checkMultiSigParams_rejects_exactly :
  (∀ nrequired npubkeys : Z,
      is_Some (checkMultiSigParams nrequired npubkeys) ↔ bad_params nrequired npubkeys)
  ∧ (∀ (Build : Builder → error + bytes) (pubkeys : list bytes) (nrequired : Z),
      let n := Z.of_nat (length pubkeys) in
      (bad_params nrequired n ↔
         ∃ d, checkMultiSigParams nrequired n = Some (WithDetail ErrBadValue d)
              ∧ P2SPMultiSigProgram Build pubkeys nrequired = inl (WithDetail ErrBadValue d))
      ∧ (¬ bad_params nrequired n ↔
         ∃ b, addP2SPMultiSig NewBuilder pubkeys nrequired = inr b
              ∧ P2SPMultiSigProgram Build pubkeys nrequired = Build b))
  ∧ (∀ pubkeys : list bytes,
      checkMultiSigParams 0 (Z.of_nat (length pubkeys)) = None ↔ pubkeys = []).
Proof.
  split; [exact checkMultiSigParams_error_iff|]. split.
  - intros Build pubkeys nrequired n.
    pose proof (checkMultiSigParams_error_iff nrequired n) as Hiff.
    unfold P2SPMultiSigProgram, addP2SPMultiSig. fold n.
    destruct (checkMultiSigParams nrequired n) as [err|] eqn:Hc.
    + destruct (checkMultiSigParams_error_root _ _ _ Hc) as [d ->].
      split; split.
      * intros _. exists d. done.
      * intros _. apply Hiff. eauto.
      * intros Hn. exfalso. apply Hn, Hiff. eauto.
      * intros (b & Hb & _). discriminate.
    + split; split.
      * intros Hb. apply Hiff in Hb. destruct Hb; discriminate.
      * intros (d & Hd & _). discriminate.
      * intros _. eexists. split; reflexivity.
      * intros _ Hb. apply Hiff in Hb. destruct Hb; discriminate.
  - intros pubkeys. destruct pubkeys as [|p ps]; [done|].
    split; [|discriminate].
    intros Hc. assert (Hs : is_Some (checkMultiSigParams 0 (Z.of_nat (length (p :: ps))))).
    { apply checkMultiSigParams_error_iff. unfold bad_params. simpl length. lia. }
    rewrite Hc in Hs. by destruct Hs.
Qed.

End ScriptProperties.

(* ===================================================================== *)
(** * Properties of the indexer                                           *)
(* ===================================================================== *)

(** ** Batches *)

Section BatchFacts.

Lemma Batch_Write_app (b1 b2 : Batch) (d : DB) :
  Batch_Write (b1 ++ b2) d = Batch_Write b2 (Batch_Write b1 d).
Proof. unfold Batch_Write. apply foldl_app. Qed.

Lemma Batch_Write_snoc (b : Batch) (op : BatchOp) (d : DB) :
  Batch_Write (b ++ [op]) d = apply_op (Batch_Write b d) op.
Proof. by rewrite Batch_Write_app. Qed.

(** A key no operation names keeps its value. *)
Lemma Batch_Write_untouched (b : Batch) (d : DB) (k : bytes) :
  Forall (λ op, op_key op ≠ k) b → Batch_Write b d !! k = d !! k.
Proof.
  revert d. induction b as [|op b IH]; intros d Hb; [done|].
  inversion_clear Hb as [|? ? Hop Hrest]. simpl. rewrite IH by done.
  destruct op as [k' v|k']; simpl in *.
  - by rewrite lookup_insert_ne.
  - by rewrite lookup_delete_ne.
Qed.

(** The value of a key after a write depends on its value before only. *)
Lemma Batch_Write_lookup_ext (b : Batch) (d1 d2 : DB) (k : bytes) :
  d1 !! k = d2 !! k → Batch_Write b d1 !! k = Batch_Write b d2 !! k.
Proof.
  revert d1 d2. induction b as [|op b IH]; intros d1 d2 Hk; [done|].
  simpl. apply IH. destruct op as [k' v|k']; simpl.
  - rewrite !lookup_insert. by case_decide.
  - rewrite !lookup_delete. by case_decide.
Qed.

(** A key some operation names gets a value that does not depend on the
    store. *)
Lemma Batch_Write_touched (b : Batch) (d1 d2 : DB) (k : bytes) :
  Exists (λ op, op_key op = k) b → Batch_Write b d1 !! k = Batch_Write b d2 !! k.
Proof.
  revert d1 d2. induction b as [|op b IH]; intros d1 d2 Hb; [by inversion Hb|].
  simpl. destruct (decide (op_key op = k)) as [Heq|Hne].
  - apply Batch_Write_lookup_ext. destruct op as [k' v|k']; simpl in *; subst.
    + by rewrite !lookup_insert_eq.
    + by rewrite !lookup_delete_eq.
  - apply IH. by inversion Hb.
Qed.

(** Writing a batch a second time changes nothing. *)
Lemma Batch_Write_again (b : Batch) (d : DB) :
  Batch_Write b (Batch_Write b d) = Batch_Write b d.
Proof.
  apply map_eq. intros k.
  destruct (decide (Exists (λ op, op_key op = k) b)) as [Hex|Hnex].
  - by apply Batch_Write_touched.
  - apply Batch_Write_untouched. by apply not_Exists_Forall in Hnex; [|intros ?; apply _].
Qed.

(** Writing a batch whose beginning was written before. *)
Lemma Batch_Write_replay (b1 b2 : Batch) (d : DB) :
  Batch_Write (b1 ++ b2) (Batch_Write b1 d) = Batch_Write b2 (Batch_Write b1 d).
Proof. by rewrite Batch_Write_app, Batch_Write_again. Qed.

Lemma Batch_Write_deletes (ks : list bytes) (d : DB) (k : bytes) :
  k ∈ ks → Batch_Write (OpDelete <$> ks) d !! k = None.
Proof.
  revert d. induction ks as [|k' ks IH]; intros d Hk; [by inversion Hk|].
  simpl. destruct (decide (k ∈ ks)) as [Hin|Hnin]; [by apply IH|].
  apply elem_of_cons in Hk as [->|?]; [|done].
  rewrite Batch_Write_untouched.
  - by rewrite lookup_delete_eq.
  - apply Forall_fmap, Forall_forall. intros k0 Hk0 Heq. simpl in Heq. by subst.
Qed.

(** A run of [Set]s in which every value offered for [k] is [x]. *)
Lemma Batch_Write_sets (kvs : list (bytes * bytes)) (d : DB) (k x : bytes) :
  k ∈ kvs.*1 → (∀ v, (k, v) ∈ kvs → v = x) →
  Batch_Write ((λ kv : bytes * bytes, OpSet kv.1 kv.2) <$> kvs) d !! k = Some x.
Proof.
  revert d. induction kvs as [|[k' v'] kvs IH]; intros d Hk Hx; [by inversion Hk|].
  simpl. destruct (decide (k ∈ kvs.*1)) as [Hin|Hnin].
  - apply IH; [done|]. intros v Hv. apply Hx. by right.
  - simpl in Hk. apply elem_of_cons in Hk as [->|?]; [|done].
    rewrite Batch_Write_untouched.
    + rewrite lookup_insert_eq. f_equal. apply Hx. by left.
    + apply Forall_fmap, Forall_forall. intros [k v] Hkv Heq. simpl in Heq. subst.
      apply Hnin. apply list_elem_of_fmap. by exists (k', v).
Qed.

End BatchFacts.

(** ** The loops of the indexer, as lists of staged operations *)

Section IndexerFacts.
Context {Hash : Type} `{Countable Hash} {E : Externals Hash}.

Implicit Types (tx : Tx Hash) (b : Block Hash) (m : Manager Hash) (batch : Batch).

Lemma deleteNew_body_eq tx (j : nat) (out : TxOutput Hash) batch :
  deleteNew_body tx j out batch =
    match ResultIds tx !! j with
    | None => None
    | Some id => Some (if decide (is_output tx id)
                       then batch ++ [OpDelete (utxo_key id)] else batch)
    end.
Proof.
  unfold deleteNew_body, is_output. destruct (ResultIds tx !! j) as [id|]; simpl; [|done].
  destruct (asOutput (Entries tx !! id)) as [o|]; simpl; done.
Qed.

(** The loop that deletes the new UTXOs of one transaction. *)
Lemma deleteNew_range tx (j : nat) (outs : list (TxOutput Hash)) batch :
  j + length outs ≤ length (ResultIds tx) →
  for_range (deleteNew_body tx) j outs batch =
    Some (batch ++ (OpDelete ∘ utxo_key <$>
            filter (is_output tx) (take (length outs) (drop j (ResultIds tx))))).
Proof.
  revert j batch. induction outs as [|out outs IH]; intros j batch Hlen.
  - simpl. rewrite ?filter_nil. simpl. by rewrite ?app_nil_r.
  - cbn [for_range length] in *. rewrite deleteNew_body_eq.
    destruct (ResultIds tx !! j) as [id|] eqn:Hj; simpl.
    + rewrite (drop_S _ _ _ Hj). cbn [take]. rewrite filter_cons.
      rewrite IH by lia. destruct (decide (is_output tx id)) as [Hout|Hout]; [|done].
      by rewrite <-app_assoc.
    + apply lookup_ge_None in Hj. lia.
Qed.

Lemma deleteNew_tx tx batch :
  length (Outputs tx) ≤ length (ResultIds tx) →
  for_range (deleteNew_body tx) 0 (Outputs tx) batch =
    Some (batch ++ (OpDelete ∘ utxo_key <$> tx_created_ids tx)).
Proof. intros Hlen. rewrite deleteNew_range by lia. by rewrite drop_0. Qed.

Lemma deleteNew_block (txs : list (Tx Hash)) batch :
  Forall (λ tx, length (Outputs tx) ≤ length (ResultIds tx)) txs →
  for_each (λ tx batch, for_range (deleteNew_body tx) 0 (Outputs tx) batch) txs batch =
    Some (batch ++ (OpDelete ∘ utxo_key <$> flat_map tx_created_ids txs)).
Proof.
  revert batch. induction txs as [|tx txs IH]; intros batch Hwf.
  - simpl. by rewrite app_nil_r.
  - inversion_clear Hwf as [|? ? Htx Htxs]. simpl.
    rewrite deleteNew_tx by done. simpl. rewrite IH by done.
    by rewrite fmap_app, app_assoc.
Qed.

(** When the loop ends without a panic, what it staged is a run of deletes
    of outputs whose entry is an output entry. *)
Lemma deleteNew_range_sound tx (j : nat) (outs : list (TxOutput Hash)) batch batch' :
  for_range (deleteNew_body tx) j outs batch = Some batch' →
  ∃ ids, batch' = batch ++ (OpDelete ∘ utxo_key <$> ids)
         ∧ Forall (λ id, ∃ i, (j ≤ i < j + length outs)%nat ∧ ResultIds tx !! i = Some id
                              ∧ is_output tx id) ids
         ∧ (∀ i id, (j ≤ i < j + length outs)%nat → ResultIds tx !! i = Some id →
                    is_output tx id → id ∈ ids).
Proof.
  revert j batch. induction outs as [|out outs IH]; intros j batch Hrun.
  - simpl in Hrun. injection Hrun as <-. exists []. simpl. rewrite app_nil_r.
    split; [done|]. split; [constructor|]. intros; lia.
  - cbn [for_range] in Hrun. rewrite deleteNew_body_eq in Hrun.
    destruct (ResultIds tx !! j) as [id|] eqn:Hj; simpl in Hrun; [|done].
    apply IH in Hrun as (ids & -> & Hids & Hall).
    assert (Hshift : Forall (λ id0, ∃ i, (j ≤ i < j + length (out :: outs))%nat
                               ∧ ResultIds tx !! i = Some id0 ∧ is_output tx id0) ids).
    { eapply Forall_impl; [exact Hids|]. simpl. intros id' (i & ? & ? & ?).
      exists i. split; [lia|done]. }
    destruct (decide (is_output tx id)) as [Hout|Hout].
    + exists (id :: ids). split; [by rewrite <-app_assoc|]. split.
      * constructor; [|done]. exists j. simpl. split; [lia|done].
      * intros i id' Hi Hid' Hout'. destruct (decide (i = j)) as [->|Hne].
        -- rewrite Hj in Hid'. injection Hid' as <-. by left.
        -- right. apply (Hall i); [simpl in Hi; lia|done..].
    + exists ids. split; [done|]. split; [done|].
      intros i id' Hi Hid' Hout'. destruct (decide (i = j)) as [->|Hne].
      * rewrite Hj in Hid'. injection Hid' as <-. done.
      * apply (Hall i); [simpl in Hi; lia|done..].
Qed.

Lemma stage_deletes (ids : list Hash) batch :
  foldl (λ batch id, Batch_Delete batch (accountUTXOKey (Hash_Bytes id))) batch ids =
    batch ++ (OpDelete ∘ utxo_key <$> ids).
Proof.
  revert batch. induction ids as [|id ids IH]; intros batch; simpl.
  - by rewrite app_nil_r.
  - rewrite IH. unfold Batch_Delete. by rewrite <-app_assoc.
Qed.

(** The loop that collects the new outputs of one transaction. *)
Lemma buildOut_body_eq tx (j : nat) (out : TxOutput Hash) (outs : list (rawOutput Hash)) :
  buildOut_body tx j out outs =
    match ResultIds tx !! j with
    | None => None
    | Some id =>
        match asOutput (Entries tx !! id) with
        | None => Some outs
        | Some resOut =>
            Some (outs ++ [mkRawOutput id (out_AssetAmount out) (out_ControlProgram out)
                             (ID tx) (wrap32 (Z.of_nat j))
                             (Ref (Source resOut)) (Position (Source resOut)) (Data resOut)])
        end
    end.
Proof.
  unfold buildOut_body, Tx_OutputID. destruct (ResultIds tx !! j) as [id|] eqn:Hj; simpl; [|done].
  by destruct (asOutput (Entries tx !! id)) as [o|].
Qed.

Lemma asOutput_Some (e : option (Entry Hash)) (o : Output Hash) :
  asOutput e = Some o ↔ e = Some (EOutput o).
Proof. destruct e as [[]|]; simpl; split; congruence. Qed.

Lemma buildOut_range_sound tx (j : nat) (outs : list (TxOutput Hash))
    (acc res : list (rawOutput Hash)) :
  outs = drop j (Outputs tx) →
  for_range (buildOut_body tx) j outs acc = Some res →
  ∃ new, res = acc ++ new ∧ Forall (created_from tx) new.
Proof.
  revert j acc. induction outs as [|out outs IH]; intros j acc Hdrop Hrun.
  - simpl in Hrun. injection Hrun as <-. exists []. by rewrite app_nil_r.
  - cbn [for_range] in Hrun. rewrite buildOut_body_eq in Hrun.
    assert (Hout : Outputs tx !! j = Some out).
    { rewrite <-(Nat.add_0_r j), <-lookup_drop, <-Hdrop. done. }
    assert (Hdrop' : outs = drop (S j) (Outputs tx)).
    { rewrite (drop_S _ _ _ Hout) in Hdrop. by injection Hdrop. }
    destruct (ResultIds tx !! j) as [id|] eqn:Hj; simpl in Hrun; [|done].
    destruct (asOutput (Entries tx !! id)) as [o|] eqn:Ho; simpl in Hrun.
    + apply IH in Hrun as (new & -> & Hnew); [|done].
      eexists (_ :: new). split; [by rewrite <-app_assoc|].
      constructor; [|done]. exists j, out, o. simpl.
      by apply asOutput_Some in Ho.
    + by apply IH in Hrun.
Qed.

Lemma buildOut_range_runs tx (j : nat) (outs : list (TxOutput Hash))
    (acc : list (rawOutput Hash)) :
  j + length outs ≤ length (ResultIds tx) →
  is_Some (for_range (buildOut_body tx) j outs acc).
Proof.
  revert j acc. induction outs as [|out outs IH]; intros j acc Hlen; [by eexists|].
  cbn [for_range length] in *. rewrite buildOut_body_eq.
  destruct (ResultIds tx !! j) as [id|] eqn:Hj.
  - destruct (asOutput (Entries tx !! id)); simpl; apply IH; lia.
  - apply lookup_ge_None in Hj. lia.
Qed.

Lemma buildOut_block_sound (txs : list (Tx Hash)) (acc res : list (rawOutput Hash)) :
  for_each (λ tx outs, for_range (buildOut_body tx) 0 (Outputs tx) outs) txs acc = Some res →
  ∃ new, res = acc ++ new ∧ Forall (λ ro, ∃ tx, tx ∈ txs ∧ created_from tx ro) new.
Proof.
  revert acc. induction txs as [|tx txs IH]; intros acc Hrun.
  - simpl in Hrun. injection Hrun as <-. exists []. by rewrite app_nil_r.
  - simpl in Hrun.
    destruct (for_range (buildOut_body tx) 0 (Outputs tx) acc) as [acc'|] eqn:Htx;
      simpl in Hrun; [|done].
    apply buildOut_range_sound in Htx as (new1 & -> & Hnew1); [|by rewrite drop_0].
    apply IH in Hrun as (new2 & -> & Hnew2).
    exists (new1 ++ new2). split; [by rewrite <-app_assoc|].
    apply Forall_app. split.
    + eapply Forall_impl; [exact Hnew1|]. intros ro Hro. exists tx. split; [by left|done].
    + eapply Forall_impl; [exact Hnew2|]. intros ro (tx' & Htx' & Hro).
      exists tx'. split; [by right|done].
Qed.

Lemma buildOut_block_runs (txs : list (Tx Hash)) (acc : list (rawOutput Hash)) :
  Forall (λ tx, length (Outputs tx) ≤ length (ResultIds tx)) txs →
  is_Some (for_each (λ tx outs, for_range (buildOut_body tx) 0 (Outputs tx) outs) txs acc).
Proof.
  revert acc. induction txs as [|tx txs IH]; intros acc Hwf; [by eexists|].
  inversion_clear Hwf as [|? ? Htx Htxs]. simpl.
  destruct (buildOut_range_runs tx 0 (Outputs tx) acc) as [acc' ->]; [lia|].
  simpl. by apply IH.
Qed.

(** A created raw output carries a created identifier. *)
Lemma created_from_id tx (ro : rawOutput Hash) :
  created_from tx ro → OutputID ro ∈ tx_created_ids tx.
Proof.
  intros (j & out & o & Hout & Hid & Hentry & _). unfold tx_created_ids.
  apply list_elem_of_filter. split.
  - unfold is_output. rewrite Hentry. simpl. eauto.
  - apply list_elem_of_lookup. exists j. rewrite lookup_take_lt; [done|].
    by apply lookup_lt_Some in Hout.
Qed.

(** [upsertConfirmedAccountOutputs]: a run of [Set]s, one for each output up
    to the first that does not marshal. *)
Lemma upsert_spec (outs : list (accountOutput Hash)) b batch :
  ∃ kvs, fst (upsertConfirmedAccountOutputs outs b batch) = batch ++ sets_of kvs
         ∧ Forall (λ kv, ∃ ao, ao ∈ outs ∧ staged_for ao kv) kvs
         ∧ (snd (upsertConfirmedAccountOutputs outs b batch) = None →
            Forall2 staged_for outs kvs).
Proof.
  revert batch. induction outs as [|ao outs IH]; intros batch.
  - exists []. simpl. rewrite app_nil_r. by repeat split.
  - cbn [upsertConfirmedAccountOutputs].
    destruct (json_Marshal_UTXO (utxo_of ao)) as [err|raw] eqn:Hm.
    + exists []. simpl. rewrite app_nil_r. by repeat split.
    + destruct (IH (Batch_Set batch (accountUTXOKey (u_OutputID (utxo_of ao))) raw))
        as (kvs & Hfst & Hall & Hnone).
      exists ((utxo_key (OutputID (ao_rawOutput ao)), raw) :: kvs).
      rewrite Hfst. split; [unfold Batch_Set; by rewrite <-app_assoc|]. split.
      * constructor.
        -- exists ao. split; [by left|done].
        -- eapply Forall_impl; [exact Hall|]. intros kv (ao' & Hin & Hst).
           exists ao'. split; [by right|done].
      * intros Hsnd. constructor; [done|]. by apply Hnone.
Qed.

Lemma upsert_all_marshal (outs : list (accountOutput Hash)) b batch :
  (∀ ao, ao ∈ outs → ∃ raw, json_Marshal_UTXO (utxo_of ao) = inr raw) →
  snd (upsertConfirmedAccountOutputs outs b batch) = None.
Proof.
  revert batch. induction outs as [|ao outs IH]; intros batch Hm; [done|].
  cbn [upsertConfirmedAccountOutputs].
  destruct (Hm ao) as [raw ->]; [by left|].
  apply IH. intros ao' Hin. apply Hm. by right.
Qed.

(** ** [loadAccountInfo] *)

(** The groups of the first loop. *)
Lemma group_by_script_lookup (outs : list (rawOutput Hash)) (s : string) :
  group_by_script outs !! s =
    match filter (λ o, ControlProgram o = s) outs with
    | [] => None
    | l => Some l
    end.
Proof.
  unfold group_by_script. induction outs as [|o outs IH] using rev_ind; [done|].
  rewrite foldl_snoc, filter_app. cbn beta zeta.
  destruct (decide (ControlProgram o = s)) as [<-|Hne].
  - rewrite lookup_insert_eq, IH.
    rewrite (filter_cons_True _ o []) by done. rewrite filter_nil.
    by destruct (filter _ outs).
  - rewrite lookup_insert_ne by done. rewrite IH.
    rewrite (filter_cons_False _ o []) by done. rewrite filter_nil.
    by rewrite app_nil_r.
Qed.

Lemma group_by_script_snoc (outs : list (rawOutput Hash)) (o : rawOutput Hash) :
  group_by_script (outs ++ [o]) =
    <[ControlProgram o :=
        default [] (group_by_script outs !! ControlProgram o) ++ [o]]> (group_by_script outs).
Proof. unfold group_by_script. by rewrite foldl_snoc. Qed.

Lemma group_member (outs l : list (rawOutput Hash)) (s : string) (o : rawOutput Hash) :
  group_by_script outs !! s = Some l → o ∈ l → o ∈ outs ∧ ControlProgram o = s.
Proof.
  rewrite group_by_script_lookup. intros Hl Ho.
  assert (l = filter (λ o, ControlProgram o = s) outs) as ->.
  { destruct (filter _ outs); congruence. }
  apply list_elem_of_filter in Ho. tauto.
Qed.

(** One round of the second loop adds annotations of outputs of the group
    visited, all with the record just decoded. *)
Lemma loadAccountInfo_body_adds (db : DB) (g : gmap string (list (rawOutput Hash)))
    (cp : controlProgram) (result : list (accountOutput Hash)) (s : string) :
  ∃ cp' new, loadAccountInfo_body db g (cp, result) s = (cp', result ++ new)
             ∧ ∀ ao, ao ∈ new → ao_rawOutput ao ∈ default [] (g !! s).
Proof.
  unfold loadAccountInfo_body, DB_Get.
  destruct (db !! accountCPKey (sha3pool_Sum256 s)) as [raw|];
    [|exists cp, []; rewrite app_nil_r; split; [done|by inversion 1]].
  destruct (json_Unmarshal_controlProgram raw cp) as [cp' [err|]];
    [exists cp', []; rewrite app_nil_r; split; [done|by inversion 1]|].
  destruct (db !! accountKey (cp_AccountID cp')) as [isExist|];
    [|exists cp', []; rewrite app_nil_r; split; [done|by inversion 1]].
  eexists cp', _. split; [done|].
  intros ao Hao. apply list_elem_of_fmap in Hao as (o & -> & Ho). done.
Qed.

Lemma loadAccountInfo_fold_adds (db : DB) (g : gmap string (list (rawOutput Hash)))
    (ks : list string) (cp : controlProgram) (result : list (accountOutput Hash)) :
  ∃ cp' new, foldl (loadAccountInfo_body db g) (cp, result) ks = (cp', result ++ new)
             ∧ ∀ ao, ao ∈ new → ∃ s, ao_rawOutput ao ∈ default [] (g !! s).
Proof.
  revert cp result. induction ks as [|s ks IH]; intros cp result.
  - exists cp, []. simpl. rewrite app_nil_r. split; [done|by inversion 1].
  - cbn [foldl]. destruct (loadAccountInfo_body_adds db g cp result s) as (cp1 & new1 & -> & H1).
    destruct (IH cp1 (result ++ new1)) as (cp2 & new2 & -> & H2).
    exists cp2, (new1 ++ new2). split; [by rewrite <-app_assoc|].
    intros ao [Hao|Hao]%elem_of_app; eauto.
Qed.

(** Every annotated output is one of the outputs given. *)
Lemma loadAccountInfo_raw m (outs : list (rawOutput Hash)) (ao : accountOutput Hash) :
  ao ∈ loadAccountInfo m outs → ao_rawOutput ao ∈ outs.
Proof.
  unfold loadAccountInfo.
  destruct (loadAccountInfo_fold_adds (m_db m) (group_by_script outs)
              (range_order (group_by_script outs)) (mkControlProgram EmptyString 0 false) [])
    as (cp' & new & -> & Hnew).
  simpl. intros Hao. destruct (Hnew ao Hao) as [s Hs].
  destruct (group_by_script outs !! s) as [l|] eqn:Hl; simpl in Hs; [|by inversion Hs].
  by destruct (group_member outs l s (ao_rawOutput ao) Hl Hs).
Qed.

(** ** [BuildAccountUTXOs] and [ReverseAccountUTXOs] as staged operations *)

Lemma deleteNew_block_sound (txs : list (Tx Hash)) batch batch' :
  for_each (λ tx batch, for_range (deleteNew_body tx) 0 (Outputs tx) batch) txs batch
    = Some batch' →
  ∃ ids, batch' = batch ++ (OpDelete ∘ utxo_key <$> ids)
         ∧ Forall (λ id, ∃ tx i, tx ∈ txs ∧ i < length (Outputs tx)
                                 ∧ ResultIds tx !! i = Some id ∧ is_output tx id) ids
         ∧ (∀ tx i id, tx ∈ txs → i < length (Outputs tx) → ResultIds tx !! i = Some id →
                       is_output tx id → id ∈ ids).
Proof.
  revert batch. induction txs as [|tx txs IH]; intros batch Hrun.
  - simpl in Hrun. injection Hrun as <-. exists []. simpl. rewrite app_nil_r.
    split; [done|]. split; [constructor|]. intros tx i id Htx. by inversion Htx.
  - simpl in Hrun.
    destruct (for_range (deleteNew_body tx) 0 (Outputs tx) batch) as [batch1|] eqn:Htx;
      simpl in Hrun; [|done].
    apply deleteNew_range_sound in Htx as (ids1 & -> & Hids1 & Hall1).
    apply IH in Hrun as (ids2 & -> & Hids2 & Hall2).
    exists (ids1 ++ ids2). split; [by rewrite fmap_app, app_assoc|]. split.
    + apply Forall_app. split.
      * eapply Forall_impl; [exact Hids1|]. intros id (i & Hi & Hid & Hout).
        exists tx, i. split; [by left|]. split; [lia|done].
      * eapply Forall_impl; [exact Hids2|]. intros id (tx' & i & Htx' & Hrest).
        exists tx', i. split; [by right|done].
    + intros tx' i id Htx' Hi Hid Hout. apply elem_of_app.
      apply elem_of_cons in Htx' as [->|Htx'].
      * left. apply (Hall1 i); [lia|done..].
      * right. by apply (Hall2 tx' i).
Qed.

Lemma Build_spec m batch b batch' (log : Log) :
  BuildAccountUTXOs m batch b = Some (batch', log) →
  ∃ outs kvs,
    Forall (λ ro, ∃ tx, tx ∈ Transactions b ∧ created_from tx ro) outs
    ∧ Forall (λ kv, ∃ ao, ao ∈ loadAccountInfo m outs ∧ staged_for ao kv) kvs
    ∧ batch' = batch ++ (OpDelete ∘ utxo_key <$> prevoutDBKeys (Transactions b))
                     ++ sets_of kvs.
Proof.
  unfold BuildAccountUTXOs. rewrite stage_deletes.
  destruct (for_each _ (Transactions b) []) as [outs|] eqn:Houts; simpl; [|done].
  apply buildOut_block_sound in Houts as (new & -> & Hnew). simpl in *.
  destruct (upsert_spec (loadAccountInfo m new) b
              (batch ++ (OpDelete ∘ utxo_key <$> prevoutDBKeys (Transactions b))))
    as (kvs & Hfst & Hkvs & _).
  destruct (upsertConfirmedAccountOutputs _ _ _) as [batch1 err]. simpl in Hfst. subst.
  intros Hres. exists new, kvs. split; [done|]. split; [done|].
  rewrite app_assoc. by destruct err; injection Hres as <- _.
Qed.

Lemma Build_runs m batch b :
  indexes_in_range b → is_Some (BuildAccountUTXOs m batch b).
Proof.
  intros Hwf. unfold BuildAccountUTXOs.
  destruct (buildOut_block_runs (Transactions b) [] Hwf) as [outs ->]. simpl.
  destruct (upsertConfirmedAccountOutputs _ _ _) as [batch1 [err|]]; by eexists.
Qed.

Lemma Reverse_sound m batch b batch' (log : Log) :
  ReverseAccountUTXOs m batch b = Some (batch', log) →
  ∃ kvs ids,
    batch' = batch ++ sets_of kvs ++ (OpDelete ∘ utxo_key <$> ids)
    ∧ Forall (λ kv, ∃ ao, ao ∈ loadAccountInfo m (reverseOuts b) ∧ staged_for ao kv) kvs
    ∧ Forall (λ id, ∃ tx i, tx ∈ Transactions b ∧ i < length (Outputs tx)
                            ∧ ResultIds tx !! i = Some id ∧ is_output tx id) ids
    ∧ (log = [] → ∀ tx i id, tx ∈ Transactions b → i < length (Outputs tx) →
                   ResultIds tx !! i = Some id → is_output tx id → id ∈ ids).
Proof.
  unfold ReverseAccountUTXOs.
  destruct (upsert_spec (loadAccountInfo m (reverseOuts b)) b batch)
    as (kvs & Hfst & Hkvs & _).
  destruct (upsertConfirmedAccountOutputs _ _ _) as [batch1 [err|]]; simpl in Hfst; subst.
  - intros [= <- <-]. exists kvs, []. simpl. rewrite app_nil_r.
    split; [done|]. split; [done|]. split; [constructor|]. discriminate.
  - destruct (for_each _ (Transactions b) (batch ++ sets_of kvs)) as [batch2|] eqn:Hdel;
      simpl; [|done].
    apply deleteNew_block_sound in Hdel as (ids & -> & Hids & Hall).
    intros [= <- <-]. exists kvs, ids. rewrite <-app_assoc. by repeat split.
Qed.

Lemma Reverse_spec m batch b :
  indexes_in_range b →
  (∀ ao, ao ∈ loadAccountInfo m (reverseOuts b) →
         ∃ raw, json_Marshal_UTXO (utxo_of ao) = inr raw) →
  ∃ kvs, ReverseAccountUTXOs m batch b =
           Some (batch ++ sets_of kvs ++ (OpDelete ∘ utxo_key <$> created_ids b), [])
         ∧ Forall2 staged_for (loadAccountInfo m (reverseOuts b)) kvs.
Proof.
  intros Hwf Hm. unfold ReverseAccountUTXOs.
  destruct (upsert_spec (loadAccountInfo m (reverseOuts b)) b batch)
    as (kvs & Hfst & _ & Hall).
  pose proof (upsert_all_marshal _ b batch Hm) as Hsnd.
  destruct (upsertConfirmedAccountOutputs _ _ _) as [batch1 err].
  simpl in Hfst, Hsnd, Hall. subst. rewrite deleteNew_block by done. simpl.
  exists kvs. rewrite <-app_assoc. split; [done|]. by apply Hall.
Qed.

(** ** Keys *)

Lemma accountUTXOKey_ne_walletkey (name : string) : accountUTXOKey name ≠ walletkey.
Proof. unfold accountUTXOKey, walletkey, UTXOPreFix. simpl. discriminate. Qed.

Lemma utxo_key_ne_walletkey (id : Hash) : utxo_key id ≠ walletkey.
Proof. apply accountUTXOKey_ne_walletkey. Qed.

Lemma Batch_Write_deletes_keep_walletkey (ids : list Hash) (d : DB) :
  Batch_Write (OpDelete ∘ utxo_key <$> ids) d !! walletkey = d !! walletkey.
Proof.
  apply Batch_Write_untouched, Forall_fmap, Forall_forall.
  intros id _. apply utxo_key_ne_walletkey.
Qed.

Lemma Batch_Write_sets_keep_walletkey (outs : list (accountOutput Hash))
    (kvs : list (bytes * bytes)) (d : DB) :
  Forall (λ kv, ∃ ao, ao ∈ outs ∧ staged_for ao kv) kvs →
  Batch_Write (sets_of kvs) d !! walletkey = d !! walletkey.
Proof.
  intros Hkvs. apply Batch_Write_untouched, Forall_fmap.
  eapply Forall_impl; [exact Hkvs|]. intros [k v] (ao & _ & Hk & _). simpl in *. subst.
  apply utxo_key_ne_walletkey.
Qed.

(** C8. Forward application stages a UTXO record only under the identifier
    of a transaction output whose result entry is an output entry; a
    retirement entry is none, so no record is written for it. Rollback
    stages the deletion of the created outputs for result identifiers whose
    entry is an output entry only, and (when it runs to its end) for all of
    these: retirements are skipped. *)
Theorem C8_only_output_entries_are_indexed m batch b :
  (∀ tx id, Entries tx !! id = Some ERetirement → ¬ is_output tx id)
  ∧ (∀ batch' log, BuildAccountUTXOs m batch b = Some (batch', log) →
       ∃ staged, batch' = batch ++ staged
         ∧ ∀ k v, OpSet k v ∈ staged →
             ∃ tx j out resOut id,
               tx ∈ Transactions b ∧ Outputs tx !! j = Some out
               ∧ ResultIds tx !! j = Some id
               ∧ Entries tx !! id = Some (EOutput resOut)
               ∧ k = accountUTXOKey (Hash_Bytes id))
  ∧ (∀ batch' log, ReverseAccountUTXOs m batch b = Some (batch', log) →
       ∃ staged, batch' = batch ++ staged
         ∧ (∀ k, OpDelete k ∈ staged →
              ∃ tx j id, tx ∈ Transactions b ∧ j < length (Outputs tx)
                         ∧ ResultIds tx !! j = Some id ∧ is_output tx id
                         ∧ k = accountUTXOKey (Hash_Bytes id))
         ∧ (log = [] → ∀ tx j id, tx ∈ Transactions b → j < length (Outputs tx) →
              ResultIds tx !! j = Some id → is_output tx id →
              OpDelete (accountUTXOKey (Hash_Bytes id)) ∈ staged)).
Proof.
  split; [|split].
  - intros tx id Hid [o Ho]. rewrite Hid in Ho. discriminate.
  - intros batch' log Hrun.
    apply Build_spec in Hrun as (outs & kvs & Houts & Hkvs & ->).
    eexists. split; [done|]. intros k v [Hin|Hin]%elem_of_app.
    + apply list_elem_of_fmap in Hin as (id & Hop & _). discriminate.
    + apply list_elem_of_fmap in Hin as ([k' v'] & [= -> ->] & Hin).
      rewrite Forall_forall in Hkvs. destruct (Hkvs _ Hin) as (ao & Hao & Hk & _).
      apply loadAccountInfo_raw in Hao. rewrite Forall_forall in Houts.
      destruct (Houts _ Hao) as (tx & Htx & j & out & resOut & Hout & Hid & Hentry & _).
      exists tx, j, out, resOut, (OutputID (ao_rawOutput ao)). by repeat split.
  - intros batch' log Hrun.
    apply Reverse_sound in Hrun as (kvs & ids & -> & Hkvs & Hids & Hall).
    eexists. split; [done|]. split.
    + intros k [Hin|Hin]%elem_of_app.
      * apply list_elem_of_fmap in Hin as (kv & Hop & _). discriminate.
      * apply list_elem_of_fmap in Hin as (id & [= ->] & Hin).
        rewrite Forall_forall in Hids. destruct (Hids _ Hin) as (tx & j & ? & ? & ? & ?).
        by exists tx, j, id.
    + intros Hlog tx j id Htx Hj Hid Hout. apply elem_of_app. right.
      apply list_elem_of_fmap. exists id. split; [done|]. by apply (Hall Hlog tx j).
Qed.

(** C9. Every key made by [accountUTXOKey] begins with the prefix ACU: and
    the wallet key does not, so the two never meet; hence what
    [upsertConfirmedAccountOutputs], [BuildAccountUTXOs] and
    [ReverseAccountUTXOs] stage leaves the checkpoint record as the batch
    had it, and staging the checkpoint leaves every UTXO record as the batch
    had it. *)
Theorem C9_utxo_keys_apart_from_wallet_key :
  (∀ name, String.prefix UTXOPreFix (accountUTXOKey name) = true)
  ∧ String.prefix UTXOPreFix walletkey = false
  ∧ (∀ name, accountUTXOKey name ≠ walletkey)
  ∧ (∀ (outs : list (accountOutput Hash)) b batch (d : DB),
       Batch_Write (fst (upsertConfirmedAccountOutputs outs b batch)) d !! walletkey
       = Batch_Write batch d !! walletkey)
  ∧ (∀ m batch b batch' (log : Log) (d : DB),
       BuildAccountUTXOs m batch b = Some (batch', log) →
       Batch_Write batch' d !! walletkey = Batch_Write batch d !! walletkey)
  ∧ (∀ m batch b batch' (log : Log) (d : DB),
       ReverseAccountUTXOs m batch b = Some (batch', log) →
       Batch_Write batch' d !! walletkey = Batch_Write batch d !! walletkey)
  ∧ (∀ batch (rawWallet : bytes) (d : DB) (name : string),
       Batch_Write (Batch_Set batch walletkey rawWallet) d !! accountUTXOKey name
       = Batch_Write batch d !! accountUTXOKey name).
Proof.
  split; [|split; [|split; [|split; [|split; [|split]]]]].
  - intros name. unfold accountUTXOKey, UTXOPreFix. simpl.
    repeat (destruct (ascii_dec _ _); [|done]). by destruct name.
  - reflexivity.
  - apply accountUTXOKey_ne_walletkey.
  - intros outs b batch d.
    destruct (upsert_spec outs b batch) as (kvs & -> & Hkvs & _).
    rewrite Batch_Write_app. by eapply Batch_Write_sets_keep_walletkey.
  - intros m batch b batch' log d Hrun.
    apply Build_spec in Hrun as (outs & kvs & _ & Hkvs & ->).
    rewrite !Batch_Write_app.
    erewrite Batch_Write_sets_keep_walletkey by done.
    apply Batch_Write_deletes_keep_walletkey.
  - intros m batch b batch' log d Hrun.
    apply Reverse_sound in Hrun as (kvs & ids & -> & Hkvs & _).
    rewrite !Batch_Write_app. rewrite Batch_Write_deletes_keep_walletkey.
    by eapply Batch_Write_sets_keep_walletkey.
  - intros batch raw d name. unfold Batch_Set. rewrite Batch_Write_snoc. simpl.
    apply lookup_insert_ne. intros Heq. by apply (accountUTXOKey_ne_walletkey name).
Qed.

End IndexerFacts.

(** ** The annotation join *)

Section AnnotationJoin.
Context {Hash : Type} `{Countable Hash} {E : Externals Hash}.

Implicit Types (m : Manager Hash) (db : DB) (g : gmap string (list (rawOutput Hash))).

Lemma annotate_spec_registered db (out : rawOutput Hash) :
  annotate_spec db out = annotate' ← registered_account db (ControlProgram out);
                         Some (annotate annotate' out).
Proof.
  unfold annotate_spec, registered_account, annotate.
  destruct (registry_record db (ControlProgram out)) as [cp|]; simpl; [|done].
  by destruct (db !! accountKey (cp_AccountID cp)).
Qed.

Lemma omap_annotate_group db (s : string) (l : list (rawOutput Hash)) :
  (∀ o, o ∈ l → ControlProgram o = s) →
  omap (annotate_spec db) l =
    match registered_account db s with
    | Some cp => map (annotate cp) l
    | None => []
    end.
Proof.
  induction l as [|o l IH]; intros Hl.
  - by destruct (registered_account db s).
  - cbn [omap list_omap]. rewrite annotate_spec_registered, (Hl o) by (by left).
    rewrite IH by (intros o' Ho'; apply Hl; by right).
    by destruct (registered_account db s).
Qed.

Lemma loadAccountInfo_body_complete db g (cp : controlProgram)
    (result : list (accountOutput Hash)) (s : string) :
  records_complete db →
  (∀ o, o ∈ default [] (g !! s) → ControlProgram o = s) →
  ∃ cp', loadAccountInfo_body db g (cp, result) s =
           (cp', result ++ omap (annotate_spec db) (default [] (g !! s))).
Proof.
  intros Hcomplete Hgroup. rewrite (omap_annotate_group db s) by done.
  unfold loadAccountInfo_body, registered_account, registry_record, DB_Get.
  destruct (db !! accountCPKey (sha3pool_Sum256 s)) as [raw|] eqn:Hraw; simpl;
    [|exists cp; by rewrite app_nil_r].
  destruct (json_Unmarshal_controlProgram raw cp) as [cp' [err|]] eqn:Hdec.
  - exists cp'.
    destruct (json_Unmarshal_controlProgram raw (mkControlProgram EmptyString 0 false))
      as [cp0 [err0|]] eqn:Hdec0; simpl; [by rewrite app_nil_r|].
    rewrite (Hcomplete _ raw (mkControlProgram EmptyString 0 false) cp Hraw) in Hdec;
      [|by rewrite Hdec0].
    rewrite Hdec0 in Hdec. discriminate.
  - exists cp'.
    rewrite (Hcomplete _ raw cp (mkControlProgram EmptyString 0 false) Hraw)
      by (by rewrite Hdec).
    rewrite Hdec. simpl.
    destruct (db !! accountKey (cp_AccountID cp')); simpl; [done|by rewrite app_nil_r].
Qed.

Lemma loadAccountInfo_fold_complete db g (ks : list string) (cp : controlProgram)
    (result : list (accountOutput Hash)) :
  records_complete db →
  (∀ s o, o ∈ default [] (g !! s) → ControlProgram o = s) →
  snd (foldl (loadAccountInfo_body db g) (cp, result) ks) =
    result ++ flat_map (λ s, omap (annotate_spec db) (default [] (g !! s))) ks.
Proof.
  intros Hcomplete Hgroup. revert cp result.
  induction ks as [|s ks IH]; intros cp result.
  - simpl. by rewrite app_nil_r.
  - cbn [foldl flat_map].
    destruct (loadAccountInfo_body_complete db g cp result s Hcomplete (Hgroup s))
      as [cp' ->].
    rewrite IH. by rewrite <-app_assoc.
Qed.

Lemma grouped_insert_fresh db g (s : string) (l : list (rawOutput Hash)) :
  g !! s = None → grouped db (<[s := l]> g) ≡ₚ omap (annotate_spec db) l ++ grouped db g.
Proof.
  intros Hs. unfold grouped. by rewrite (map_to_list_insert g s l Hs).
Qed.

Lemma grouped_delete db g (s : string) (l : list (rawOutput Hash)) :
  g !! s = Some l → grouped db g ≡ₚ omap (annotate_spec db) l ++ grouped db (delete s g).
Proof.
  intros Hs. unfold grouped. by rewrite <-(map_to_list_delete g s l Hs).
Qed.

Lemma grouped_group_by_script db (outs : list (rawOutput Hash)) :
  grouped db (group_by_script outs) ≡ₚ omap (annotate_spec db) outs.
Proof.
  induction outs as [|o outs IH] using rev_ind; [done|].
  rewrite group_by_script_snoc, omap_app, <-IH.
  destruct (group_by_script outs !! ControlProgram o) as [l|] eqn:Hl; simpl.
  - rewrite <-insert_delete_eq.
    rewrite grouped_insert_fresh by apply lookup_delete_eq.
    rewrite (grouped_delete db (group_by_script outs) _ l Hl).
    rewrite omap_app. rewrite <-!app_assoc. apply Permutation_app_head.
    apply Permutation_app_comm.
  - rewrite grouped_insert_fresh by done. apply Permutation_app_comm.
Qed.

Lemma grouped_by_keys db g :
  flat_map (λ s, omap (annotate_spec db) (default [] (g !! s))) (map_to_list g).*1
  = grouped db g.
Proof.
  unfold grouped.
  assert (Hall : ∀ kv, kv ∈ map_to_list g → g !! kv.1 = Some kv.2).
  { intros [k v] Hkv. by apply elem_of_map_to_list. }
  induction (map_to_list g) as [|kv l IH]; [done|].
  cbn [fmap list_fmap flat_map]. rewrite (Hall kv) by (by left). simpl.
  f_equal. apply IH. intros kv' Hkv'. apply Hall. by right.
Qed.

(** When the records of the registry name all their fields, and [range]
    visits every key once, [loadAccountInfo] returns, up to the order, the
    outputs given whose control program has a record that decodes and names
    an account that exists, each with the fields of that record. *)
Lemma loadAccountInfo_join m (outs : list (rawOutput Hash)) :
  records_complete (m_db m) → range_visits_each_key_once →
  loadAccountInfo m outs ≡ₚ omap (annotate_spec (m_db m)) outs.
Proof.
  intros Hcomplete Hrange. unfold loadAccountInfo.
  rewrite loadAccountInfo_fold_complete; [|done|].
  - simpl. rewrite (Hrange (group_by_script outs)).
    rewrite grouped_by_keys. apply grouped_group_by_script.
  - intros s o Ho.
    destruct (group_by_script outs !! s) as [l|] eqn:Hl; simpl in Ho; [|by inversion Ho].
    by destruct (group_member outs l s o Hl Ho).
Qed.

End AnnotationJoin.

(** ** The synchronisation loop *)

Section Loop.
Context {Hash : Type} `{Countable Hash} {E : Externals Hash}.

Implicit Types (c : Chain Hash) (s : State Hash) (m : Manager Hash) (batch : Batch)
  (world : nat → Chain Hash) (block : Block Hash).

Lemma commitWalletInfo_info (w : Wallet Hash) batch :
  w_info (commitWalletInfo w batch).1.1 = w_info w.
Proof. unfold commitWalletInfo. by destruct (json_Marshal_WalletInfo _). Qed.

Lemma rollbackBlock_spec m batch block m' batch' (log : Log) :
  rollbackBlock m batch block = Some (m', batch', log) →
  m' = set_checkpoint m (wrap64 (Height block - 1)) (PreviousBlockHash block)
  ∧ ∃ log0, ReverseAccountUTXOs m batch block = Some (batch', log0)
            ∧ log = log0 ++ [(LevelInfo, "start rollback this block")].
Proof.
  unfold rollbackBlock.
  destruct (ReverseAccountUTXOs m batch block) as [[batch1 log1]|]; simpl; [|done].
  intros [= <- <- <-]. eauto.
Qed.

Lemma applyBlock_spec m batch block m' batch' (log : Log) :
  applyBlock m batch block = Some (m', batch', log) →
  let m1 := set_checkpoint m (Height block) (Block_Hash block) in
  ∃ batch1 log1,
    BuildAccountUTXOs m1 batch block = Some (batch1, log1)
    ∧ commitWalletInfo (m_wallet m1) batch1 = (m_wallet m', batch', drop (length log1) log)
    ∧ m_db m' = m_db m
    ∧ log = log1 ++ drop (length log1) log.
Proof.
  unfold applyBlock. cbn zeta.
  destruct (BuildAccountUTXOs _ batch block) as [[batch1 log1]|]; simpl; [|done].
  destruct (commitWalletInfo _ batch1) as [[w2 batch2] log2] eqn:Hc.
  intros [= <- <- <-]. exists batch1, log1. simpl.
  rewrite drop_app_length. by repeat split.
Qed.

(** Only the steps that commit write to the database. *)
Lemma step_persisted c s : commits (st_pc s) = false → persisted (step c s) = persisted s.
Proof.
  unfold step, persisted. destruct (st_pc s) eqn:Hpc; simpl; try done; intros _.
  - by destruct (InMainChain c _ _).
  - destruct (GetBlockByHash c _) as [err|block]; [done|].
    destruct (rollbackBlock _ _ _) as [[[m' batch'] log']|] eqn:Hr; [|done].
    by apply rollbackBlock_spec in Hr as [-> _].
  - by destruct (GetBlockByHeight c _).
  - by destruct (GetBlockByHeight c _).
Qed.

Lemma step_returned c s : st_pc s = pcReturned → step c s = s.
Proof. unfold step. by intros ->. Qed.

Lemma exec_returned world s0 (n k : nat) :
  st_pc (exec world n s0) = pcReturned → n ≤ k → exec world k s0 = exec world n s0.
Proof.
  intros Hret. induction 1 as [|k Hle IH]; [done|].
  simpl. rewrite IH. by apply step_returned.
Qed.

Lemma exec_persisted world s0 (k n : nat) :
  k ≤ n → (∀ j, k ≤ j < n → commits (st_pc (exec world j s0)) = false) →
  persisted (exec world n s0) = persisted (exec world k s0).
Proof.
  induction 1 as [|n Hle IH]; intros Hno; [done|].
  simpl. rewrite step_persisted by (apply Hno; lia). apply IH. intros j Hj. apply Hno. lia.
Qed.

(** C3. In every execution, at the test of the fetched block: when the
    block's [PreviousBlockHash] differs from the hash of the checkpoint,
    nothing changes (checkpoint, batch, database and log are as they were)
    and the loop is back at LOOP, with no block in hand; when it is equal,
    the checkpoint becomes the block's height and hash, and the loop is back
    at LOOP unless [BuildAccountUTXOs] panicked, which it does only for a
    block with an output that has no result identifier (the checkpoint in
    memory is the block's then too). And whenever a step changes the
    checkpoint, either it is that test, passed, and the checkpoint is the
    fetched block's, or it is the rollback of the block fetched by hash and
    the checkpoint is that block's parent. *)
Theorem C3_checkpoint_advances_only_to_a_linked_block world s0 (n : nat) :
  let s := exec world n s0 in
  let s' := exec world (S n) s0 in
  (∀ block, st_pc s = pcLinkage block →
     (PreviousBlockHash block ≠ wi_Hash (checkpoint s) →
        s' = mkState (st_m s) (st_batch s) (st_log s) pcLoop)
     ∧ (PreviousBlockHash block = wi_Hash (checkpoint s) →
        checkpoint s' = mkWalletInfo (Height block) (Block_Hash block)
        ∧ (st_pc s' = pcLoop
           ∨ (st_pc s' = pcPanicked ∧ ¬ indexes_in_range block))))
  ∧ (checkpoint s' ≠ checkpoint s →
       (∃ block, st_pc s = pcLinkage block
                 ∧ PreviousBlockHash block = wi_Hash (checkpoint s)
                 ∧ checkpoint s' = mkWalletInfo (Height block) (Block_Hash block))
       ∨ (∃ block, st_pc s = pcGetBlockByHash
                   ∧ GetBlockByHash (world n) (wi_Hash (checkpoint s)) = inr block
                   ∧ checkpoint s' = mkWalletInfo (wrap64 (Height block - 1))
                                                  (PreviousBlockHash block))).
Proof.
  cbn zeta. simpl exec. generalize (exec world n s0) as s. intros s.
  generalize (world n) as c. intros c.
  assert (Happly : ∀ block,
            match applyBlock (st_m s) (st_batch s) block with
            | Some (m', _, _) =>
                w_info (m_wallet m') = mkWalletInfo (Height block) (Block_Hash block)
            | None => ¬ indexes_in_range block
            end).
  { intros block. destruct (applyBlock _ _ _) as [[[m' batch'] log']|] eqn:Ha.
    - apply applyBlock_spec in Ha as (batch1 & log1 & _ & Hc & _ & _).
      pose proof (commitWalletInfo_info
                    (m_wallet (set_checkpoint (st_m s) (Height block) (Block_Hash block)))
                    batch1) as Hinfo.
      rewrite Hc in Hinfo. simpl in Hinfo. by rewrite Hinfo.
    - intros Hwf. unfold applyBlock in Ha. cbn zeta in Ha.
      destruct (Build_runs (set_checkpoint (st_m s) (Height block) (Block_Hash block))
                  (st_batch s) block Hwf) as [[batch1 log1] Hb].
      rewrite Hb in Ha. simpl in Ha. by destruct (commitWalletInfo _ batch1) as [[? ?] ?]. }
  split.
  - intros block Hpc. unfold step, checkpoint. rewrite Hpc. split.
    + intros Hne. by rewrite decide_False.
    + intros Heq. rewrite decide_True by done. specialize (Happly block).
      destruct (applyBlock _ _ _) as [[[m' batch'] log']|]; simpl.
      * split; [done|by left].
      * split; [done|by right].
  - unfold step, checkpoint. destruct (st_pc s) as [| | | | |block| |] eqn:Hpc; simpl.
    + destruct (InMainChain c _ _); simpl; by intros [].
    + destruct (GetBlockByHash c _) as [err|block] eqn:Hget; simpl; [by intros []|].
      destruct (rollbackBlock _ _ _) as [[[m' batch'] log']|] eqn:Hr; simpl; [|by intros []].
      intros _. right. exists block. apply rollbackBlock_spec in Hr as [-> _]. done.
    + pose proof (commitWalletInfo_info (m_wallet (st_m s)) (st_batch s)) as Hinfo.
      destruct (commitWalletInfo _ _) as [[w batch] log]. simpl in *. by intros [].
    + destruct (GetBlockByHeight c _); simpl; by intros [].
    + destruct (GetBlockByHeight c _); simpl; by intros [].
    + destruct (decide (PreviousBlockHash block = wi_Hash (w_info (m_wallet (st_m s)))))
        as [Heq|Hne]; simpl; [|by intros []].
      intros _. left. exists block. split; [done|]. split; [done|].
      specialize (Happly block).
      by destruct (applyBlock _ _ _) as [[[m' batch'] log']|].
    + by intros [].
    + by intros [].
Qed.

(** C6. In every execution, when [GetBlockByHash] fails in the rollback
    loop, or [GetBlockByHeight] fails after the wait for the block, the step
    logs an error and [WalletUpdate] has returned; the database is as it
    was, hence as the last step that committed left it, and it stays so:
    nothing staged since reaches it. *)
Theorem C6_fetch_failure_returns_without_writing world s0 (n : nat) :
  let s := exec world n s0 in
  let s' := exec world (S n) s0 in
  (st_pc s = pcGetBlockByHash
   ∧ ∃ err, GetBlockByHash (world n) (wi_Hash (checkpoint s)) = inl err)
  ∨ (st_pc s = pcBlockWaiter
     ∧ ∃ err, GetBlockByHeight (world n) (wrap64 (wi_Height (checkpoint s) + 1)) = inl err) →
  st_pc s' = pcReturned
  ∧ (∃ msg, st_log s' = st_log s ++ [(LevelError, msg)])
  ∧ persisted s' = persisted s
  ∧ (∀ k, k ≤ n →
          (∀ j, k ≤ j < n → commits (st_pc (exec world j s0)) = false) →
          persisted s' = persisted (exec world k s0))
  ∧ (∀ k, n < k → exec world k s0 = s').
Proof.
  cbn zeta. intros Hfail.
  assert (Hstep : st_pc (exec world (S n) s0) = pcReturned
                  ∧ (∃ msg, st_log (exec world (S n) s0)
                            = st_log (exec world n s0) ++ [(LevelError, msg)])
                  ∧ persisted (exec world (S n) s0) = persisted (exec world n s0)).
  { simpl exec. revert Hfail. generalize (exec world n s0) as s. intros s.
    unfold step, checkpoint, persisted.
    intros [[Hpc [err Herr]]|[Hpc [err Herr]]]; rewrite Hpc, Herr; simpl; eauto. }
  destruct Hstep as (Hpc & Hlog & Hdb). repeat split; try done.
  - intros k Hk Hno. rewrite Hdb. by apply exec_persisted.
  - intros k Hk. apply exec_returned; [done|lia].
Qed.

End Loop.

(** ** Operations that leave a key alone *)

Section UntouchedKeys.

Lemma sets_of_keys_untouched (kvs : list (bytes * bytes)) (k : bytes) :
  k ∉ kvs.*1 → Forall (λ op, op_key op ≠ k) (sets_of kvs).
Proof.
  intros Hk. apply Forall_fmap, Forall_forall. intros [k' v] Hin Heq. simpl in Heq. subst.
  apply Hk. apply list_elem_of_fmap. by exists (k, v).
Qed.

Lemma deletes_untouched (ks : list bytes) (k : bytes) :
  k ∉ ks → Forall (λ op, op_key op ≠ k) (OpDelete <$> ks).
Proof.
  intros Hk. apply Forall_fmap, Forall_forall. intros k' Hin Heq. simpl in Heq. by subst.
Qed.

End UntouchedKeys.

(** ** Loading the checkpoint *)

Section LoadCheckpoint.
Context {Hash : Type} `{Countable Hash} {E : Externals Hash}.

(** Whatever the database holds, the [info] that [GetWalletInfo] returns is
    the one it declared: the record is decoded into the wallet, not into
    [info]. *)
Lemma GetWalletInfo_info (w : Wallet Hash) :
  fst (snd (GetWalletInfo w)) = zeroWalletInfo.
Proof.
  unfold GetWalletInfo. destruct (DB_Get (w_DB w) walletkey) as [raw|]; [|done].
  by destruct (json_Unmarshal_Wallet raw w) as [w' [err|]].
Qed.

(** C4 (as the code has it). When the wallet record is missing,
    [GetWalletInfo] returns the zero checkpoint and no error, and
    [NewWallet] logs nothing; when the record does not decode,
    [GetWalletInfo] returns the zero checkpoint and the error, and
    [NewWallet] logs one warning and goes on with the zero checkpoint. *)
Theorem C4_missing_or_undecodable_record_loads_zero (db : DB) :
  (db !! walletkey = None →
     snd (GetWalletInfo (mkWallet db zeroWalletInfo)) = (zeroWalletInfo, None)
     ∧ NewWallet db = (mkWallet db zeroWalletInfo, []))
  ∧ (∀ rawWallet w' err,
       db !! walletkey = Some rawWallet →
       json_Unmarshal_Wallet rawWallet (mkWallet db zeroWalletInfo) = (w', Some err) →
       snd (GetWalletInfo (mkWallet db zeroWalletInfo)) = (zeroWalletInfo, Some err)
       ∧ w_info (fst (NewWallet db)) = zeroWalletInfo
       ∧ snd (NewWallet db) = [(LevelWarn, "get wallet info")]).
Proof.
  split.
  - intros Hnone. unfold NewWallet, GetWalletInfo, DB_Get. simpl. by rewrite Hnone.
  - intros raw w' err Hraw Hdec. unfold NewWallet, GetWalletInfo, DB_Get. simpl.
    by rewrite Hraw, Hdec.
Qed.

End LoadCheckpoint.

(* ===================================================================== *)
(** * The properties in the small concrete world                          *)
(* ===================================================================== *)

Section Concrete.

Local Open Scope Z_scope.

(** C1 (the code at the failing input). Block [ex_block_same] creates O1
    for a registered account in its first transaction and spends it in its
    second. After [WalletUpdate] has applied and committed the block (four
    steps from a new wallet: checkpoint 1 with the block's hash, back at
    LOOP), the store still holds a record under the key of O1. *)
Theorem C1_output_spent_in_its_own_block_stays :
  let s := exec (λ _, ex_chain [ex_block_same]) 4 ex_start in
  st_pc s = pcLoop
  ∧ checkpoint s = mkWalletInfo 1 (ex_Block_Hash ex_block_same)
  ∧ persisted s !! walletkey = Some "I@B()T1T3"
  ∧ created_ids ex_block_same = ["O1"]
  ∧ prevoutDBKeys (Transactions ex_block_same) = ["O1"]
  ∧ is_Some (annotate_spec ex_accounts
               (mkRawOutput "O1" (ex_asset 100) "prog1" "T1" 0 "M1" 0 EmptyString))
  ∧ is_Some (persisted s !! accountUTXOKey "O1").
Proof.
  cbn zeta. repeat split; try (vm_compute; reflexivity); vm_compute; eexists; reflexivity.
Qed.



(** The missing record is loaded without a warning, and a record that
    decodes to (2, h2) is loaded as the zero checkpoint. *)
Lemma C4_counterexample :
  (∅ : DB) !! walletkey = None
  ∧ snd (NewWallet (∅ : DB)) = []
  ∧ ex_db_h2 !! walletkey = Some "II@h2"
  ∧ json_Unmarshal_Wallet "II@h2" (mkWallet ex_db_h2 zeroWalletInfo)
    = (mkWallet ex_db_h2 (mkWalletInfo 2 "h2"), None)
  ∧ snd (GetWalletInfo (mkWallet ex_db_h2 zeroWalletInfo)) = (mkWalletInfo 0 EmptyString, None)
  ∧ NewWallet ex_db_h2 = (mkWallet ex_db_h2 (mkWalletInfo 0 EmptyString), []).
Proof. repeat split; vm_compute; reflexivity. Qed.

Lemma C4_witness :
  snd (GetWalletInfo (mkWallet (∅ : DB) zeroWalletInfo)) = (zeroWalletInfo, None)
  ∧ NewWallet (∅ : DB) = (mkWallet ∅ zeroWalletInfo, []).
Proof.
  apply (proj1 (C4_missing_or_undecodable_record_loads_zero (∅ : DB))). reflexivity.
Defined.

Lemma C6_witness :
  st_pc (exec (λ _, ex_chain []) 1 ex_lost) = pcGetBlockByHash
  ∧ GetBlockByHash (ex_chain []) (String "X"%char EmptyString) = inl (ErrLib "block not found")
  ∧ st_pc (exec (λ _, ex_chain []) 2 ex_lost) = pcReturned
  ∧ persisted (exec (λ _, ex_chain []) 2 ex_lost) = persisted ex_lost
  ∧ exec (λ _, ex_chain []) 7 ex_lost = exec (λ _, ex_chain []) 2 ex_lost.
Proof.
  assert (Hfail : st_pc (exec (λ _, ex_chain []) 1 ex_lost) = pcGetBlockByHash
                  ∧ ∃ err, GetBlockByHash (ex_chain [])
                             (wi_Hash (checkpoint (exec (λ _, ex_chain []) 1 ex_lost)))
                           = inl err).
  { split; [reflexivity|]. eexists. vm_compute. reflexivity. }
  destruct (C6_fetch_failure_returns_without_writing (λ _, ex_chain []) ex_lost 1
              (or_introl Hfail)) as (Hpc & _ & _ & Hdb & Hstay).
  split; [reflexivity|]. split; [vm_compute; reflexivity|]. split; [exact Hpc|].
  split.
  - apply (Hdb 0%nat); [lia|]. intros j Hj. assert (j = 0%nat) as -> by lia. reflexivity.
  - apply Hstay. lia.
Defined.

(** The race: the block fetched for height 13 has another parent, and
    nothing changes. And a linked block with an output that has no result
    identifier: [BuildAccountUTXOs] panics, with the checkpoint in memory
    already the block's. *)
Lemma C3_witness :
  let s := exec ex_world_race 3 ex_at12 in
  let p := exec (λ _, ex_chain [ex_block_short]) 3 ex_start in
  let p' := exec (λ _, ex_chain [ex_block_short]) 4 ex_start in
  (st_pc s = pcLinkage ex_block_race
   ∧ PreviousBlockHash ex_block_race ≠ wi_Hash (checkpoint s)
   ∧ exec ex_world_race 4 ex_at12 = mkState (st_m s) (st_batch s) (st_log s) pcLoop)
  ∧ (st_pc p = pcLinkage ex_block_short
     ∧ PreviousBlockHash ex_block_short = wi_Hash (checkpoint p)
     ∧ checkpoint p = mkWalletInfo 0 EmptyString
     ∧ checkpoint p' = mkWalletInfo 1 "B()T9"
     ∧ st_pc p' = pcPanicked).
Proof.
  cbn zeta. split.
  - assert (Hpc : st_pc (exec ex_world_race 3 ex_at12) = pcLinkage ex_block_race)
      by (vm_compute; reflexivity).
    assert (Hne : PreviousBlockHash ex_block_race
                  ≠ wi_Hash (checkpoint (exec ex_world_race 3 ex_at12)))
      by (vm_compute; discriminate).
    split; [exact Hpc|]. split; [exact Hne|].
    destruct (C3_checkpoint_advances_only_to_a_linked_block ex_world_race ex_at12 3)
      as [Hlink _].
    exact (proj1 (Hlink ex_block_race Hpc) Hne).
  - assert (Hpc : st_pc (exec (λ _, ex_chain [ex_block_short]) 3 ex_start)
                  = pcLinkage ex_block_short)
      by (vm_compute; reflexivity).
    assert (Heq : PreviousBlockHash ex_block_short
                  = wi_Hash (checkpoint (exec (λ _, ex_chain [ex_block_short]) 3 ex_start)))
      by (vm_compute; reflexivity).
    split; [exact Hpc|]. split; [exact Heq|]. split; [vm_compute; reflexivity|].
    destruct (C3_checkpoint_advances_only_to_a_linked_block
                (λ _, ex_chain [ex_block_short]) ex_start 3) as [Hlink _].
    split; [exact (proj1 (proj2 (Hlink ex_block_short Hpc) Heq))|].
    vm_compute. reflexivity.
Defined.

Lemma C8_witness :
  ∃ batch' log,
    BuildAccountUTXOs ex_m1 [] ex_block2 = Some (batch', log)
    ∧ ∃ staged, batch' = [] ++ staged
        ∧ ∀ k v, OpSet k v ∈ staged →
            ∃ tx j out resOut id,
              tx ∈ Transactions ex_block2 ∧ Outputs tx !! j = Some out
              ∧ ResultIds tx !! j = Some id
              ∧ Entries tx !! id = Some (EOutput resOut)
              ∧ k = accountUTXOKey (Hash_Bytes id).
Proof.
  destruct (C8_only_output_entries_are_indexed ex_m1 [] ex_block2) as (_ & Hbuild & _).
  destruct (BuildAccountUTXOs ex_m1 [] ex_block2) as [[batch' log]|] eqn:Hrun.
  - exists batch', log. split; [reflexivity|]. by apply (Hbuild batch' log).
  - vm_compute in Hrun. discriminate.
Defined.

End Concrete.

(* ===================================================================== *)
(** * Further properties of script.go                                     *)
(* ===================================================================== *)

Section ScriptMore.
Import vmutil vmparse.
Local Open Scope Z_scope.

Lemma foldl_AddData (b : Builder) (pubkeys : list bytes) :
  foldl AddData b pubkeys = mkBuilder (items b ++ (IData <$> pubkeys)).
Proof.
  revert b. induction pubkeys as [|p ps IH]; intros b; simpl.
  - rewrite app_nil_r. by destruct b.
  - rewrite IH. simpl. by rewrite <-app_assoc.
Qed.

Lemma addP2SPMultiSig_spec (b : Builder) (pubkeys : list bytes) (nrequired : Z) :
  match addP2SPMultiSig b pubkeys nrequired with
  | inl err => bad_params nrequired (Z.of_nat (length pubkeys))
               ∧ checkMultiSigParams nrequired (Z.of_nat (length pubkeys)) = Some err
  | inr b' => ¬ bad_params nrequired (Z.of_nat (length pubkeys))
              ∧ items b' = items b ++ multisig_items pubkeys nrequired
  end.
Proof.
  unfold addP2SPMultiSig.
  pose proof (checkMultiSigParams_error_iff nrequired (Z.of_nat (length pubkeys))) as Hiff.
  destruct (checkMultiSigParams nrequired (Z.of_nat (length pubkeys))) as [err|].
  - split; [apply Hiff; eauto|done].
  - split; [intros Hbad; apply Hiff in Hbad; by destruct Hbad|].
    rewrite foldl_AddData. unfold multisig_items. simpl.
    repeat rewrite <-app_assoc. reflexivity.
Qed.

(** X1. [addP2SPMultiSig] either refuses the parameters and leaves the
    builder as it is, or adds exactly: DUP, TOALTSTACK, SHA3, the keys in
    their order, the quorum, the number of keys, CHECKMULTISIG, VERIFY,
    FROMALTSTACK, 0, CHECKPREDICATE; that is 10 items and one per key. *)
Theorem X1_addP2SPMultiSig_layout (b : Builder) (pubkeys : list bytes) (nrequired : Z) :
  match addP2SPMultiSig b pubkeys nrequired with
  | inl err => bad_params nrequired (Z.of_nat (length pubkeys))
               ∧ checkMultiSigParams nrequired (Z.of_nat (length pubkeys)) = Some err
  | inr b' => ¬ bad_params nrequired (Z.of_nat (length pubkeys))
              ∧ items b' = items b ++ multisig_items pubkeys nrequired
              ∧ length (items b') = (length (items b) + 10 + length pubkeys)%nat
  end.
Proof.
  pose proof (addP2SPMultiSig_spec b pubkeys nrequired) as Hspec.
  destruct (addP2SPMultiSig b pubkeys nrequired) as [err|b']; [done|].
  destruct Hspec as [Hok Hitems]. split; [done|]. split; [done|].
  rewrite Hitems. unfold multisig_items.
  rewrite !length_app, length_fmap. simpl. lia.
Qed.

(** X2. [CoinbaseProgram] with a zero quorum does not check the parameters
    and does not look at the keys: it builds the four items of the height
    test alone, also for a key list that [P2SPMultiSigProgram] refuses.
    With another quorum it returns the error of the parameter check for
    the refused combinations and builds the height test followed by the
    multisig items for the others. The height goes in as [int64]. *)
Theorem X2_CoinbaseProgram_zero_quorum_skips_the_check
    (Build : Builder → error + bytes) (pubkeys : list bytes) (nrequired height : Z) :
  let n := Z.of_nat (length pubkeys) in
  let pre := [IOp OP_BLOCKHEIGHT; IInt64 (int64_of_uint64 height);
              IOp OP_GREATERTHAN; IOp OP_VERIFY] in
  let result := CoinbaseProgram Build pubkeys nrequired (int64_of_uint64 height) in
  (nrequired = 0 → result = Build (mkBuilder pre))
  ∧ (nrequired ≠ 0 → bad_params nrequired n →
       ∃ d, result = inl (WithDetail ErrBadValue d))
  ∧ (nrequired ≠ 0 → ¬ bad_params nrequired n →
       result = Build (mkBuilder (pre ++ multisig_items pubkeys nrequired))).
Proof.
  cbn zeta. unfold CoinbaseProgram.
  split; [intros ->; reflexivity|].
  destruct (Z.eqb_spec nrequired 0) as [->|Hne].
  { split; intros Hn; by destruct Hn. }
  pose proof (addP2SPMultiSig_spec
                (AddOp (AddOp (AddInt64 (AddOp NewBuilder OP_BLOCKHEIGHT)
                                        (int64_of_uint64 height)) OP_GREATERTHAN) OP_VERIFY)
                pubkeys nrequired) as Hlayout.
  destruct (addP2SPMultiSig _ pubkeys nrequired) as [err|b'].
  - destruct Hlayout as [Hbad Herr]. split.
    + intros _ _. destruct (checkMultiSigParams_error_root _ _ _ Herr) as [d ->]. eauto.
    + intros _ Hn. by destruct Hn.
  - destruct Hlayout as (Hok & Hitems). split.
    + intros _ Hbad. by destruct Hok.
    + intros _ _. destruct b' as [its]. simpl in Hitems. by rewrite Hitems.
Qed.

End ScriptMore.

Section ParseFacts.
Import vmutil vmparse.
Local Open Scope Z_scope.

Variable ParseProgram : bytes → perror + list Instruction.
Variable AsInt64 : bytes → perror + Z.
Variable PublicKeySize : nat.

Lemma index_of_nat (pops : list Instruction) (k : nat) :
  index pops (Z.of_nat k) = pops !! k.
Proof.
  unfold index. destruct (Z.ltb_spec (Z.of_nat k) 0); [lia|]. by rewrite Nat2Z.id.
Qed.

Lemma index_in_range (pops : list Instruction) (i : Z) :
  0 ≤ i < Z.of_nat (length pops) → is_Some (index pops i).
Proof.
  intros Hi. unfold index. destruct (Z.ltb_spec i 0); [lia|].
  apply lookup_lt_is_Some. lia.
Qed.

(** The loop never leaves the slice when its range lies within it. *)
Lemma collect_pubkeys_in_range (pops : list Instruction) (i : Z) (todo : nat)
    (acc : list bytes) :
  0 ≤ i → i + Z.of_nat todo ≤ Z.of_nat (length pops) →
  is_Some (collect_pubkeys PublicKeySize pops i todo acc).
Proof.
  revert i acc. induction todo as [|todo IH]; intros i acc Hi Hlen; [by eexists|].
  cbn [collect_pubkeys].
  destruct (index_in_range pops i) as [inst ->]; [lia|]. simpl.
  case_decide; [by eexists|]. apply IH; lia.
Qed.

(** What the loop returns when it returns keys. *)
Lemma collect_pubkeys_sound (pops : list Instruction) (i : Z) (todo : nat)
    (acc keys : list bytes) :
  collect_pubkeys PublicKeySize pops i todo acc = Some (Some keys) →
  ∃ new, keys = acc ++ new ∧ length new = todo ∧ Forall (key_size_ok PublicKeySize) new.
Proof.
  revert i acc. induction todo as [|todo IH]; intros i acc Hrun.
  - injection Hrun as <-. exists []. by rewrite app_nil_r.
  - cbn [collect_pubkeys] in Hrun.
    destruct (index pops i) as [inst|]; simpl in Hrun; [|done].
    case_decide as Hsize; [done|].
    apply IH in Hrun as (new & -> & Hlen & Hall).
    exists (inst_Data inst :: new). rewrite <-app_assoc. split; [done|].
    split; [simpl; by rewrite Hlen|]. constructor; [|done].
    by destruct (decide (String.length (inst_Data inst) = PublicKeySize)).
Qed.

(** The loop over a known stretch of the instructions. *)
Lemma collect_pubkeys_stretch (pre ks post : list Instruction) (acc : list bytes) :
  collect_pubkeys PublicKeySize (pre ++ ks ++ post) (Z.of_nat (length pre)) (length ks) acc
  = Some (if decide (Forall (key_size_ok PublicKeySize) (inst_Data <$> ks))
          then Some (acc ++ (inst_Data <$> ks)) else None).
Proof.
  revert pre acc. induction ks as [|k ks IH]; intros pre acc.
  - cbn [length collect_pubkeys]. rewrite fmap_nil, app_nil_r.
    by rewrite decide_True by constructor.
  - cbn [collect_pubkeys length]. rewrite index_of_nat.
    rewrite lookup_app_r by lia. rewrite Nat.sub_diag. simpl.
    destruct (decide (String.length (inst_Data k) = PublicKeySize)) as [Hk|Hk].
    + rewrite decide_False by (intros Hne; by apply Hne).
      replace (Z.of_nat (length pre) + 1) with (Z.of_nat (length (pre ++ [k])))
        by (rewrite length_app; simpl; lia).
      replace (pre ++ k :: ks ++ post) with ((pre ++ [k]) ++ ks ++ post)
        by (by rewrite <-app_assoc).
      rewrite IH. rewrite <-app_assoc. simpl.
      destruct (decide (Forall (key_size_ok PublicKeySize) (inst_Data <$> ks))) as [Hks|Hks].
      * rewrite decide_True; [done|]. by constructor.
      * rewrite decide_False; [done|]. intros Hall. apply Hks. by inversion Hall.
    + rewrite decide_True by done.
      rewrite decide_False; [done|]. intros Hall. apply Hk. by inversion Hall.
Qed.

(** X3. [ParseP2SPMultiSigProgram] never indexes the parsed program out of
    range: whatever the program, the parser and the integer decoder, it
    returns. *)
Theorem X3_ParseP2SPMultiSigProgram_never_panics (program : bytes) :
  is_Some (ParseP2SPMultiSigProgram ParseProgram AsInt64 PublicKeySize program).
Proof.
  unfold ParseP2SPMultiSigProgram.
  destruct (ParseProgram program) as [err|pops]; [by eexists|]. cbn zeta.
  destruct (Z.ltb_spec (Z.of_nat (length pops)) 11) as [|Hlen]; [by eexists|].
  destruct (index_in_range pops (Z.of_nat (length pops) - 6)) as [i6 ->]; [lia|]. simpl.
  destruct (AsInt64 (inst_Data i6)) as [err|npubkeys]; [by eexists|].
  destruct (Z.gtb_spec npubkeys (Z.of_nat (length pops) - 10)) as [|Hn]; [by eexists|].
  destruct (index_in_range pops (Z.of_nat (length pops) - 7)) as [i7 ->]; [lia|]. simpl.
  destruct (AsInt64 (inst_Data i7)) as [err|nrequired]; [by eexists|].
  destruct (checkMultiSigParams nrequired npubkeys) as [err|] eqn:Hcheck; [by eexists|].
  assert (Hok : ¬ bad_params nrequired npubkeys).
  { intros Hbad. apply checkMultiSigParams_error_iff in Hbad. rewrite Hcheck in Hbad.
    by destruct Hbad. }
  unfold bad_params in Hok.
  destruct (Z.ltb_spec npubkeys 0) as [|Hpos]; [exfalso; apply Hok; lia|].
  destruct (collect_pubkeys_in_range pops (Z.of_nat (length pops) - 7 - npubkeys)
              (Z.to_nat npubkeys) []) as [r ->]; [lia|lia|].
  simpl. destruct r; by eexists.
Qed.

(** X4. What [ParseP2SPMultiSigProgram] returns: with an error, nil keys
    and quorum 0; without an error, either nil keys and quorum 0, or the
    slice of keys it made, every key of the size of a public key, at least
    10 instructions besides the keys and 11 in all, and either no key in
    the slice and quorum 0, or a quorum between 1 and the number of keys. *)
Theorem X4_ParseP2SPMultiSigProgram_result (program : bytes)
    (pubkeys : option (list bytes)) (nrequired : Z) (err : option perror) :
  ParseP2SPMultiSigProgram ParseProgram AsInt64 PublicKeySize program
    = Some (pubkeys, nrequired, err) →
  match err with
  | Some _ => pubkeys = None ∧ nrequired = 0
  | None =>
      (pubkeys = None ∧ nrequired = 0)
      ∨ ∃ keys pops,
          pubkeys = Some keys
          ∧ ParseProgram program = inr pops
          ∧ (length keys + 10 ≤ length pops)%nat ∧ (11 ≤ length pops)%nat
          ∧ Forall (key_size_ok PublicKeySize) keys
          ∧ ((keys = [] ∧ nrequired = 0) ∨ 0 < nrequired ≤ Z.of_nat (length keys))
  end.
Proof.
  unfold ParseP2SPMultiSigProgram.
  destruct (ParseProgram program) as [e|pops]; [by intros [= <- <- <-]|]. cbn zeta.
  destruct (Z.ltb_spec (Z.of_nat (length pops)) 11) as [|Hlen]; [by intros [= <- <- <-]|].
  destruct (index pops (Z.of_nat (length pops) - 6)) as [i6|]; simpl; [|done].
  destruct (AsInt64 (inst_Data i6)) as [e|npubkeys]; [by intros [= <- <- <-]|].
  destruct (Z.gtb_spec npubkeys (Z.of_nat (length pops) - 10)) as [|Hn];
    [by intros [= <- <- <-]|].
  destruct (index pops (Z.of_nat (length pops) - 7)) as [i7|]; simpl; [|done].
  destruct (AsInt64 (inst_Data i7)) as [e|q]; [by intros [= <- <- <-]|].
  destruct (checkMultiSigParams q npubkeys) as [e|] eqn:Hcheck; [by intros [= <- <- <-]|].
  assert (Hok : ¬ bad_params q npubkeys).
  { intros Hbad. apply checkMultiSigParams_error_iff in Hbad. rewrite Hcheck in Hbad.
    by destruct Hbad. }
  unfold bad_params in Hok.
  destruct (Z.ltb_spec npubkeys 0) as [|Hpos]; [done|].
  destruct (collect_pubkeys _ pops _ _ []) as [[keys|]|] eqn:Hloop; simpl; [| |done].
  - intros [= <- <- <-]. right.
    apply collect_pubkeys_sound in Hloop as (new & -> & Hnew & Hall). simpl.
    exists new, pops. split; [done|]. split; [done|]. split; [lia|]. split; [lia|].
    split; [done|].
    destruct (decide (npubkeys = 0)) as [->|Hnz].
    + left. destruct new; [|done]. split; [done|]. lia.
    + right. lia.
  - intros [= <- <- <-]. by left.
Qed.

Lemma Parse_reads_from_the_end (program : bytes)
    (pre ks : list Instruction) (iReq iN t1 t2 t3 t4 t5 : Instruction) (nrequired : Z) :
  ParseProgram program = inr (pre ++ ks ++ [iReq; iN; t1; t2; t3; t4; t5]) →
  (3 ≤ length pre)%nat → (4 ≤ length pre + length ks)%nat →
  AsInt64 (inst_Data iN) = inr (Z.of_nat (length ks)) →
  AsInt64 (inst_Data iReq) = inr nrequired →
  ¬ bad_params nrequired (Z.of_nat (length ks)) →
  ParseP2SPMultiSigProgram ParseProgram AsInt64 PublicKeySize program
  = Some (if decide (Forall (key_size_ok PublicKeySize) (inst_Data <$> ks))
          then (Some (inst_Data <$> ks), nrequired, None)
          else (None, 0, None)).
Proof.
  intros Hparse Hpre Hlen HN HReq Hok. unfold ParseP2SPMultiSigProgram. rewrite Hparse.
  cbn zeta. set (pops := pre ++ ks ++ [iReq; iN; t1; t2; t3; t4; t5]).
  assert (Hlenp : length pops = (length pre + length ks + 7)%nat).
  { unfold pops. rewrite !length_app. simpl. lia. }
  rewrite Hlenp. destruct (Z.ltb_spec (Z.of_nat (length pre + length ks + 7)) 11); [lia|].
  replace (Z.of_nat (length pre + length ks + 7) - 6)
    with (Z.of_nat (length pre + length ks + 1)) by lia.
  rewrite index_of_nat. unfold pops.
  rewrite lookup_app_r by lia. rewrite lookup_app_r by lia.
  replace (length pre + length ks + 1 - length pre - length ks)%nat with 1%nat by lia.
  simpl. rewrite HN.
  destruct (Z.gtb_spec (Z.of_nat (length ks)) (Z.of_nat (length pre + length ks + 7) - 10));
    [lia|].
  replace (Z.of_nat (length pre + length ks + 7) - 7)
    with (Z.of_nat (length pre + length ks)) by lia.
  rewrite index_of_nat.
  rewrite lookup_app_r by lia. rewrite lookup_app_r by lia.
  replace (length pre + length ks - length pre - length ks)%nat with 0%nat by lia.
  simpl. rewrite HReq.
  destruct (checkMultiSigParams nrequired (Z.of_nat (length ks))) as [e|] eqn:Hcheck.
  { exfalso. apply Hok, checkMultiSigParams_error_iff. rewrite Hcheck. eauto. }
  destruct (Z.ltb_spec (Z.of_nat (length ks)) 0); [lia|].
  replace (Z.of_nat (length pre + length ks) - Z.of_nat (length ks))
    with (Z.of_nat (length pre)) by lia.
  rewrite Nat2Z.id, collect_pubkeys_stretch. simpl.
  by destruct (decide (Forall (key_size_ok PublicKeySize) (inst_Data <$> ks))).
Qed.


(** X5. The instructions the function reads, counted from the end: the
    last five are not looked at, the two before them carry the quorum and
    the number of keys, and the keys are the instructions before these.
    When the key count matches and the parameters pass the check, the
    function returns the data of the key instructions and the quorum; but
    when one of the keys has not the size of a public key it returns nil
    keys, quorum 0 and no error. *)
Theorem X5_ParseP2SPMultiSigProgram_reads_from_the_end (program : bytes)
    (pre ks : list Instruction) (iReq iN t1 t2 t3 t4 t5 : Instruction) (nrequired : Z) :
  ParseProgram program = inr (pre ++ ks ++ [iReq; iN; t1; t2; t3; t4; t5]) →
  (3 ≤ length pre)%nat → (4 ≤ length pre + length ks)%nat →
  AsInt64 (inst_Data iN) = inr (Z.of_nat (length ks)) →
  AsInt64 (inst_Data iReq) = inr nrequired →
  ¬ bad_params nrequired (Z.of_nat (length ks)) →
  ParseP2SPMultiSigProgram ParseProgram AsInt64 PublicKeySize program
  = Some (if decide (Forall (key_size_ok PublicKeySize) (inst_Data <$> ks))
          then (Some (inst_Data <$> ks), nrequired, None)
          else (None, 0, None)).
Proof. apply Parse_reads_from_the_end. Qed.

(** X6. Round trip with the builder. Let the program that
    [P2SPMultiSigProgram] builds be read back by the parser of package [vm]
    as one instruction for each item the builder was given, a data item
    keeping its data and the two integers their values. Then
    [ParseP2SPMultiSigProgram] returns the keys and the quorum the program
    was built from, when there is at least one key and every key has the
    size of a public key. For the empty key list (with quorum 0, which the
    builder accepts) the program has 10 instructions and is refused as too
    short; with a key of another size the result is nil keys, quorum 0 and
    no error. *)
Theorem X6_P2SPMultiSigProgram_parses_back
    (Build : Builder → error + bytes) (enc : item → Instruction)
    (pubkeys : list bytes) (nrequired : Z) (program : bytes) :
  P2SPMultiSigProgram Build pubkeys nrequired = inr program →
  ParseProgram program = inr (enc <$> multisig_items pubkeys nrequired) →
  (∀ d, inst_Data (enc (IData d)) = d) →
  AsInt64 (inst_Data (enc (IInt64 nrequired))) = inr nrequired →
  AsInt64 (inst_Data (enc (IInt64 (Z.of_nat (length pubkeys)))))
    = inr (Z.of_nat (length pubkeys)) →
  ParseP2SPMultiSigProgram ParseProgram AsInt64 PublicKeySize program
  = Some (match pubkeys with
          | [] => (None, 0, Some ErrShortProgram)
          | _ => if decide (Forall (key_size_ok PublicKeySize) pubkeys)
                 then (Some pubkeys, nrequired, None)
                 else (None, 0, None)
          end).
Proof.
  intros Hbuild Hparse Hdata Hreq Hn.
  assert (Hok : ¬ bad_params nrequired (Z.of_nat (length pubkeys))).
  { unfold P2SPMultiSigProgram in Hbuild.
    pose proof (addP2SPMultiSig_spec NewBuilder pubkeys nrequired) as Hspec.
    destruct (addP2SPMultiSig NewBuilder pubkeys nrequired); [done|]. by destruct Hspec. }
  destruct pubkeys as [|p ps].
  - unfold ParseP2SPMultiSigProgram. rewrite Hparse. reflexivity.
  - assert (Hkeys : ∀ l : list bytes, inst_Data <$> (enc <$> (IData <$> l)) = l).
    { intros l. induction l as [|k ks IH]; [done|].
      rewrite !fmap_cons. by rewrite Hdata, IH. }
    unfold multisig_items in Hparse. rewrite !fmap_app in Hparse.
    rewrite (Parse_reads_from_the_end program _ _ _ _ _ _ _ _ _ nrequired Hparse).
    + by rewrite Hkeys.
    + simpl. lia.
    + simpl. lia.
    + rewrite !length_fmap. exact Hn.
    + exact Hreq.
    + by rewrite !length_fmap.
Qed.

End ParseFacts.

(* ===================================================================== *)
(** * Further properties of indexer.go                                    *)
(* ===================================================================== *)

Section WalletRecord.
Context {Hash : Type} `{Countable Hash} {E : Externals Hash}.

Implicit Types (w : Wallet Hash) (batch : Batch) (db : DB).

(** X7. Whatever the database holds, the wallet that [NewWallet] returns
    has the zero checkpoint (height 0): the record, when there is one, is
    decoded into the wallet and then overwritten with the zero [info] that
    [GetWalletInfo] returns. The log is empty, or one warning, and it is a
    warning exactly when there is a record and decoding it gives an
    error. *)
Theorem X7_NewWallet_starts_from_zero db :
  w_info (fst (NewWallet db)) = zeroWalletInfo
  ∧ GetWalletHeight (fst (NewWallet db)) = 0%Z
  ∧ (snd (NewWallet db) = [(LevelWarn, "get wallet info")]
     ↔ ∃ rawWallet, db !! walletkey = Some rawWallet
         ∧ is_Some (snd (json_Unmarshal_Wallet rawWallet (mkWallet db zeroWalletInfo))))
  ∧ (snd (NewWallet db) = []
     ↔ ¬ ∃ rawWallet, db !! walletkey = Some rawWallet
           ∧ is_Some (snd (json_Unmarshal_Wallet rawWallet (mkWallet db zeroWalletInfo)))).
Proof.
  unfold NewWallet, GetWalletHeight, GetWalletInfo, DB_Get. simpl.
  destruct (db !! walletkey) as [raw|] eqn:Hraw; simpl.
  - destruct (json_Unmarshal_Wallet raw (mkWallet db zeroWalletInfo)) as [w' [err|]] eqn:Hdec;
      simpl.
    + repeat split; try done.
      * intros _. exists raw. rewrite Hdec. eauto.
      * intros Hn. exfalso. apply Hn. exists raw. rewrite Hdec. eauto.
    + repeat split; try done.
      * intros (raw' & [= <-] & Hs). rewrite Hdec in Hs. by destruct Hs.
      * intros _ (raw' & [= <-] & Hs). rewrite Hdec in Hs. by destruct Hs.
  - repeat split; try done.
    + intros (raw' & Hraw' & _). done.
    + intros _ (raw' & Hraw' & _). done.
Qed.

(** X8. A commit whose checkpoint marshals writes the staged operations in
    their order and then the checkpoint record; the checkpoint in memory
    is untouched and nothing is logged. Committing once more right away
    leaves the database as it is, whether or not the batch kept the
    written operations. *)
Theorem X8_commitWalletInfo_writes_and_repeats w batch (rawWallet : bytes) :
  json_Marshal_WalletInfo (w_info w) = inr rawWallet →
  let r1 := commitWalletInfo w batch in
  let r2 := commitWalletInfo (fst (fst r1)) (snd (fst r1)) in
  w_DB (fst (fst r1)) = <[walletkey := rawWallet]> (Batch_Write batch (w_DB w))
  ∧ w_info (fst (fst r1)) = w_info w
  ∧ snd r1 = []
  ∧ (snd (fst r1) = batch ++ [OpSet walletkey rawWallet] ∨ snd (fst r1) = [])
  ∧ w_DB (fst (fst r2)) = w_DB (fst (fst r1))
  ∧ w_info (fst (fst r2)) = w_info w
  ∧ snd r2 = [].
Proof.
  intros Hm. destruct w as [d [h hash]]. unfold commitWalletInfo. simpl in *.
  rewrite Hm. simpl. rewrite Hm. simpl.
  unfold Batch_Set, Batch_after_Write. rewrite Batch_Write_snoc. simpl.
  assert (Hid : <[walletkey := rawWallet]> (<[walletkey := rawWallet]> (Batch_Write batch d))
                = <[walletkey := rawWallet]> (Batch_Write batch d))
    by apply insert_insert_eq.
  destruct Batch_keeps_written.
  - split; [done|]. split; [done|]. split; [done|]. split; [by left|].
    split; [|done].
    change (<[walletkey:=rawWallet]> (Batch_Write batch d))
      with (apply_op (Batch_Write batch d) (OpSet walletkey rawWallet)).
    rewrite <-(Batch_Write_snoc batch (OpSet walletkey rawWallet) d).
    rewrite Batch_Write_replay. simpl. rewrite Batch_Write_snoc. simpl. exact Hid.
  - split; [done|]. split; [done|]. split; [done|]. split; [by right|].
    split; [|done]. simpl. exact Hid.
Qed.

End WalletRecord.

Section Upsert.
Context {Hash : Type} `{Countable Hash} {E : Externals Hash}.

Implicit Types (m : Manager Hash) (batch : Batch) (b : Block Hash)
  (outs : list (accountOutput Hash)).

(** [upsertConfirmedAccountOutputs] up to the first output that does not
    marshal. *)
Lemma upsert_prefix outs b batch :
  ∃ staged rest kvs,
    outs = staged ++ rest
    ∧ Forall2 staged_for staged kvs
    ∧ fst (upsertConfirmedAccountOutputs outs b batch) = batch ++ sets_of kvs
    ∧ match snd (upsertConfirmedAccountOutputs outs b batch) with
      | None => rest = []
      | Some e => ∃ ao rest' err, rest = ao :: rest'
                    ∧ json_Marshal_UTXO (utxo_of ao) = inl err
                    ∧ e = ErrWrap err "failed marshal accountutxo"
      end.
Proof.
  revert batch. induction outs as [|ao outs IH]; intros batch.
  - exists [], [], []. simpl. rewrite app_nil_r. by repeat split.
  - cbn [upsertConfirmedAccountOutputs].
    destruct (json_Marshal_UTXO (utxo_of ao)) as [err|raw] eqn:Hm.
    + exists [], (ao :: outs), []. simpl. rewrite app_nil_r.
      repeat split; try done. by exists ao, outs, err.
    + destruct (IH (Batch_Set batch (accountUTXOKey (u_OutputID (utxo_of ao))) raw))
        as (staged & rest & kvs & -> & Hst & Hfst & Hsnd).
      exists (ao :: staged), rest, ((ao_key ao, raw) :: kvs).
      split; [done|]. split; [by constructor|]. split; [|done].
      rewrite Hfst. unfold Batch_Set. by rewrite <-app_assoc.
Qed.

(** What is staged does not depend on the batch staged into. *)
Lemma upsert_fst_app outs b batch :
  fst (upsertConfirmedAccountOutputs outs b batch)
  = batch ++ fst (upsertConfirmedAccountOutputs outs b []).
Proof.
  revert batch. induction outs as [|ao outs IH]; intros batch.
  - simpl. by rewrite app_nil_r.
  - cbn [upsertConfirmedAccountOutputs].
    destruct (json_Marshal_UTXO (utxo_of ao)) as [err|raw]; simpl; [by rewrite app_nil_r|].
    rewrite IH. rewrite (IH (Batch_Set [] _ _)). unfold Batch_Set. simpl.
    by rewrite <-app_assoc.
Qed.

(** X9. [upsertConfirmedAccountOutputs] stages one [Set] for each output,
    in order, up to the first output whose record does not marshal; at
    that output it stops, keeps what it has staged, and returns the
    marshalling error wrapped with the message "failed marshal
    accountutxo". Without such an output it stages all and returns nil.
    It stages nothing else and removes nothing from the batch. *)
Theorem X9_upsert_stages_up_to_the_first_failure outs b batch :
  ∃ staged rest kvs,
    outs = staged ++ rest
    ∧ Forall2 (λ ao kv, kv.1 = accountUTXOKey (Hash_Bytes (OutputID (ao_rawOutput ao)))
                        ∧ json_Marshal_UTXO (utxo_of ao) = inr kv.2) staged kvs
    ∧ fst (upsertConfirmedAccountOutputs outs b batch)
      = batch ++ ((λ kv, OpSet kv.1 kv.2) <$> kvs)
    ∧ match snd (upsertConfirmedAccountOutputs outs b batch) with
      | None => rest = []
      | Some e => ∃ ao rest' err, rest = ao :: rest'
                    ∧ json_Marshal_UTXO (utxo_of ao) = inl err
                    ∧ e = ErrWrap err "failed marshal accountutxo"
      end.
Proof. apply upsert_prefix. Qed.

Lemma staged_for_keys (aos : list (accountOutput Hash)) (kvs : list (bytes * bytes)) :
  Forall2 staged_for aos kvs → kvs.*1 = ao_key <$> aos.
Proof.
  induction 1 as [|ao kv aos kvs [Hk _] _ IH]; [done|].
  rewrite !fmap_cons. by rewrite Hk, IH.
Qed.

Lemma staged_for_elem (aos : list (accountOutput Hash)) (kvs : list (bytes * bytes))
    (kv : bytes * bytes) :
  Forall2 staged_for aos kvs → kv ∈ kvs → ∃ ao, ao ∈ aos ∧ staged_for ao kv.
Proof.
  induction 1 as [|ao kv' aos kvs Hst _ IH]; [by inversion 1|].
  intros [->|Hin]%elem_of_cons.
  - exists ao. split; [by left|done].
  - destruct (IH Hin) as (ao' & Hao' & Hst'). exists ao'. split; [by right|done].
Qed.

(** X10. The effect of [upsertConfirmedAccountOutputs] on the store once
    the batch is written. A key that is the key of none of the outputs is
    as the batch had it. When all records marshal, the key of an output
    holds the record of that output, whatever was stored under it before
    (the record is overwritten), provided the outputs with that key all
    marshal to the same bytes. Staging the same outputs a second time
    changes nothing in what is written. *)
Theorem X10_upsert_overwrites_and_repeats outs b batch (d : DB) :
  let batch1 := fst (upsertConfirmedAccountOutputs outs b batch) in
  (∀ k, k ∉ ao_key <$> outs → Batch_Write batch1 d !! k = Batch_Write batch d !! k)
  ∧ (snd (upsertConfirmedAccountOutputs outs b batch) = None →
     ∀ ao raw, ao ∈ outs → json_Marshal_UTXO (utxo_of ao) = inr raw →
       (∀ ao', ao' ∈ outs → ao_key ao' = ao_key ao →
               json_Marshal_UTXO (utxo_of ao') = inr raw) →
       Batch_Write batch1 d !! ao_key ao = Some raw)
  ∧ Batch_Write (fst (upsertConfirmedAccountOutputs outs b batch1)) d
    = Batch_Write batch1 d.
Proof.
  cbn zeta.
  destruct (upsert_prefix outs b batch) as (staged & rest & kvs & Houts & Hst & Hfst & Hsnd).
  split; [|split].
  - intros k Hk. rewrite Hfst, Batch_Write_app. apply Batch_Write_untouched.
    apply sets_of_keys_untouched. rewrite (staged_for_keys _ _ Hst).
    intros Hin. apply Hk. rewrite Houts, fmap_app. apply elem_of_app. by left.
  - intros Hnone ao raw Hao Hraw Hsame. rewrite Hnone in Hsnd. subst rest.
    rewrite app_nil_r in Houts. subst staged.
    rewrite Hfst, Batch_Write_app. apply Batch_Write_sets.
    + rewrite (staged_for_keys _ _ Hst). apply list_elem_of_fmap. by exists ao.
    + intros v Hv. destruct (staged_for_elem _ _ _ Hst Hv) as (ao' & Hao' & Hk & Hv').
      simpl in Hk, Hv'. specialize (Hsame ao' Hao' (eq_sym Hk)). congruence.
  - rewrite (upsert_fst_app outs b (fst (upsertConfirmedAccountOutputs outs b batch))).
    rewrite (upsert_fst_app outs b batch).
    rewrite <-app_assoc, !Batch_Write_app. apply Batch_Write_again.
Qed.

End Upsert.

Section BuildAndReverse.
Context {Hash : Type} `{Countable Hash} {E : Externals Hash}.

Implicit Types (m : Manager Hash) (batch : Batch) (b : Block Hash) (tx : Tx Hash).

(** A loop over the outputs that runs past the result identifiers
    panics. *)
Lemma buildOut_range_panics tx (j : nat) (outs : list (TxOutput Hash))
    (acc : list (rawOutput Hash)) :
  j ≤ length (ResultIds tx) → length (ResultIds tx) < j + length outs →
  for_range (buildOut_body tx) j outs acc = None.
Proof.
  revert j acc. induction outs as [|out outs IH]; intros j acc Hj Hlen; [simpl in Hlen; lia|].
  cbn [for_range]. rewrite buildOut_body_eq.
  destruct (ResultIds tx !! j) as [id|] eqn:Hid; [|done].
  apply lookup_lt_Some in Hid.
  destruct (asOutput (Entries tx !! id)); simpl; apply IH; simpl in Hlen; lia.
Qed.

Lemma deleteNew_range_panics tx (j : nat) (outs : list (TxOutput Hash)) batch :
  j ≤ length (ResultIds tx) → length (ResultIds tx) < j + length outs →
  for_range (deleteNew_body tx) j outs batch = None.
Proof.
  revert j batch. induction outs as [|out outs IH]; intros j batch Hj Hlen;
    [simpl in Hlen; lia|].
  cbn [for_range]. rewrite deleteNew_body_eq.
  destruct (ResultIds tx !! j) as [id|] eqn:Hid; [|done].
  apply lookup_lt_Some in Hid. simpl. apply IH; simpl in Hlen; lia.
Qed.

Lemma createdOuts_runs_iff b : is_Some (createdOuts b) ↔ indexes_in_range b.
Proof.
  unfold createdOuts, indexes_in_range. generalize (@nil (rawOutput Hash)) as acc.
  induction (Transactions b) as [|tx txs IH]; intros acc.
  - simpl. split; [constructor|by eexists].
  - simpl. destruct (decide (length (Outputs tx) ≤ length (ResultIds tx))) as [Hle|Hgt].
    + destruct (buildOut_range_runs tx 0 (Outputs tx) acc) as [acc' ->]; [lia|]. simpl.
      rewrite IH. split; [by constructor|by inversion 1].
    + rewrite buildOut_range_panics by lia. simpl. split; [by intros []|].
      inversion 1. lia.
Qed.

Lemma deleteNew_block_runs_iff (txs : list (Tx Hash)) batch :
  is_Some (for_each (λ tx batch, for_range (deleteNew_body tx) 0 (Outputs tx) batch)
                    txs batch)
  ↔ Forall (λ tx, length (Outputs tx) ≤ length (ResultIds tx)) txs.
Proof.
  revert batch. induction txs as [|tx txs IH]; intros batch.
  - simpl. split; [constructor|by eexists].
  - simpl. destruct (decide (length (Outputs tx) ≤ length (ResultIds tx))) as [Hle|Hgt].
    + rewrite deleteNew_tx by done. simpl.
      rewrite IH. split; [by constructor|by inversion 1].
    + rewrite deleteNew_range_panics by lia. simpl. split; [by intros []|].
      inversion 1. lia.
Qed.

(** A key that a run of [Set]s names holds a value afterwards. *)
Lemma Batch_Write_sets_present (kvs : list (bytes * bytes)) (d : DB) (k : bytes) :
  k ∈ kvs.*1 → is_Some (Batch_Write (sets_of kvs) d !! k).
Proof.
  revert d. induction kvs as [|[k1 v1] kvs IH]; intros d Hk; [by inversion Hk|].
  simpl. destruct (decide (k ∈ kvs.*1)) as [Hin|Hnin]; [by apply IH|].
  simpl in Hk. apply elem_of_cons in Hk as [->|?]; [|done].
  rewrite Batch_Write_untouched by by apply sets_of_keys_untouched.
  rewrite lookup_insert_eq. eauto.
Qed.

(** [BuildAccountUTXOs] in one equation. *)
Lemma Build_unfold m batch b :
  BuildAccountUTXOs m batch b =
    outs ← createdOuts b;
    let r := upsertConfirmedAccountOutputs (loadAccountInfo m outs) b
               (batch ++ (OpDelete ∘ utxo_key <$> prevoutDBKeys (Transactions b))) in
    Some (fst r, match snd r with
                 | Some _ => [(LevelError, "building new account outputs")]
                 | None => []
                 end).
Proof.
  unfold BuildAccountUTXOs, createdOuts. rewrite stage_deletes.
  destruct (for_each _ (Transactions b) []) as [outs|]; simpl; [|done].
  by destruct (upsertConfirmedAccountOutputs _ _ _) as [batch1 [err|]].
Qed.

(** X11. [BuildAccountUTXOs] panics exactly when some transaction of the
    block has more outputs than result identifiers ([tx.ResultIds[j]] out
    of range); the account registry, the batch and marshalling errors
    play no part in it. When it does not panic it logs nothing or one
    error, the error exactly when a record did not marshal. *)
Theorem X11_Build_panics_iff_an_output_has_no_result_id m batch b :
  (BuildAccountUTXOs m batch b = None ↔ ¬ indexes_in_range b)
  ∧ (∀ batch' log, BuildAccountUTXOs m batch b = Some (batch', log) →
       ∃ outs, createdOuts b = Some outs
         ∧ (log = [] ∧ snd (upsertConfirmedAccountOutputs (loadAccountInfo m outs) b
                              (batch ++ (OpDelete ∘ utxo_key
                                           <$> prevoutDBKeys (Transactions b)))) = None
            ∨ log = [(LevelError, "building new account outputs")]
              ∧ is_Some (snd (upsertConfirmedAccountOutputs (loadAccountInfo m outs) b
                                (batch ++ (OpDelete ∘ utxo_key
                                             <$> prevoutDBKeys (Transactions b))))))).
Proof.
  rewrite Build_unfold. pose proof (createdOuts_runs_iff b) as Hiff.
  destruct (createdOuts b) as [outs|]; simpl.
  - split.
    + split; [done|]. intros Hn. exfalso. apply Hn, Hiff. eauto.
    + intros batch' log [= <- <-]. exists outs. split; [done|].
      destruct (snd _) as [err|]; [right|left]; eauto.
  - split; [|done]. split; [|done]. intros _ Hwf. apply Hiff in Hwf. by destruct Hwf.
Qed.

(** X12. The store after a forward application that neither panics nor
    fails to marshal, once the batch is written: the key of every created
    output that the wallet annotates holds a record, also when the block
    spends that output itself (the records are staged after the deletes);
    the key of every other output the block spends holds nothing; every
    other key is as the batch had it. *)
Theorem X12_store_after_forward_application m batch b (outs : list (rawOutput Hash))
    (batch' : Batch) (d : DB) :
  createdOuts b = Some outs →
  BuildAccountUTXOs m batch b = Some (batch', []) →
  let created := ao_key <$> loadAccountInfo m outs in
  let spent := utxo_key <$> prevoutDBKeys (Transactions b) in
  (∀ k, k ∈ created → is_Some (Batch_Write batch' d !! k))
  ∧ (∀ k, k ∉ created → k ∈ spent → Batch_Write batch' d !! k = None)
  ∧ (∀ k, k ∉ created → k ∉ spent → Batch_Write batch' d !! k = Batch_Write batch d !! k).
Proof.
  intros Houts. rewrite Build_unfold, Houts. simpl.
  destruct (upsert_prefix (loadAccountInfo m outs) b
              (batch ++ (OpDelete ∘ utxo_key <$> prevoutDBKeys (Transactions b))))
    as (staged & rest & kvs & Hsplit & Hst & Hfst & Hsnd).
  destruct (snd (upsertConfirmedAccountOutputs _ _ _)) as [err|]; [done|].
  intros [= <-]. subst rest. rewrite app_nil_r in Hsplit. subst staged.
  rewrite Hfst. cbn zeta. rewrite <-(staged_for_keys _ _ Hst).
  rewrite list_fmap_compose.
  split; [|split].
  - intros k Hk. rewrite Batch_Write_app. by apply Batch_Write_sets_present.
  - intros k Hnc Hs. rewrite !Batch_Write_app.
    rewrite (Batch_Write_untouched (sets_of kvs)) by by apply sets_of_keys_untouched.
    by apply Batch_Write_deletes.
  - intros k Hnc Hns. rewrite !Batch_Write_app.
    rewrite (Batch_Write_untouched (sets_of kvs)) by by apply sets_of_keys_untouched.
    by apply Batch_Write_untouched, deletes_untouched.
Qed.

(** X13. [ReverseAccountUTXOs]: when a record of a spent output does not
    marshal, it logs one error and returns at once with the records staged
    so far; it stages no delete at all, so the outputs the block created
    stay, and it does not panic whatever the transactions look like.
    Otherwise it panics exactly when some transaction has more outputs
    than result identifiers, and logs nothing when it does not. *)
Theorem X13_Reverse_returns_early_on_a_marshalling_error m batch b :
  let r := upsertConfirmedAccountOutputs (loadAccountInfo m (reverseOuts b)) b batch in
  (is_Some (snd r) →
     ReverseAccountUTXOs m batch b
     = Some (fst r, [(LevelError, "reversing account spent and retire outputs")])
     ∧ ∀ k, OpDelete k ∈ fst r → OpDelete k ∈ batch)
  ∧ (snd r = None →
     (ReverseAccountUTXOs m batch b = None ↔ ¬ indexes_in_range b)
     ∧ (indexes_in_range b →
        ReverseAccountUTXOs m batch b
        = Some (fst r ++ (OpDelete ∘ utxo_key <$> created_ids b), []))).
Proof.
  cbn zeta. unfold ReverseAccountUTXOs.
  destruct (upsert_spec (loadAccountInfo m (reverseOuts b)) b batch)
    as (kvs & Hfst & _ & _).
  destruct (upsertConfirmedAccountOutputs _ _ _) as [batch1 [err|]]; simpl in *.
  - split; [|done]. intros _. split; [done|]. subst batch1.
    intros k [Hin|Hin]%elem_of_app; [done|].
    apply list_elem_of_fmap in Hin as (kv & Hkv & _). discriminate.
  - split; [by intros []|]. intros _.
    pose proof (deleteNew_block_runs_iff (Transactions b) batch1) as Hiff.
    split.
    + destruct (for_each _ (Transactions b) batch1) as [batch2|]; simpl.
      * split; [done|]. intros Hn. exfalso. apply Hn, Hiff. eauto.
      * split; [|done]. intros _ Hwf. apply Hiff in Hwf. by destruct Hwf.
    + intros Hwf. by rewrite deleteNew_block.
Qed.

(** X14. The outputs that a rollback resurrects are among the outputs that
    the forward application of the same block deletes, in the same order:
    [ReverseAccountUTXOs] takes the spends that [prevoutDBKeys] takes and
    drops those whose spent output does not resolve to an output entry. *)
Theorem X14_resurrected_outputs_are_deleted_outputs b :
  (OutputID <$> reverseOuts b) `sublist_of` prevoutDBKeys (Transactions b).
Proof.
  unfold reverseOuts, prevoutDBKeys.
  induction (Transactions b) as [|tx txs IH]; [done|].
  cbn [flat_map]. rewrite fmap_app. apply sublist_app; [|done].
  induction (InputIDs tx) as [|inpID ids IHids]; [done|].
  cbn [omap list_omap]. unfold reverseOut at 1.
  destruct (Tx_Spend tx inpID) as [sp|]; simpl; [|done].
  destruct (asOutput (Entries tx !! SpentOutputId sp)) as [o|]; simpl.
  - by apply sublist_skip.
  - by apply sublist_cons.
Qed.

(** X15. Without any assumption on the order of [range] or on the decoder:
    every output that [loadAccountInfo] returns is one of the outputs
    given, its control program has a record in the registry under its
    content hash, that record decoded without error to the account, key
    index and change flag the output is annotated with, and the account
    exists in the account database. For no outputs it returns none. *)
Theorem X15_loadAccountInfo_returns_only_registered_outputs m
    (outs : list (rawOutput Hash)) :
  (∀ ao, ao ∈ loadAccountInfo m outs →
     ao_rawOutput ao ∈ outs
     ∧ ∃ raw cp0 cp,
         m_db m !! accountCPKey (sha3pool_Sum256 (ControlProgram (ao_rawOutput ao))) = Some raw
         ∧ json_Unmarshal_controlProgram raw cp0 = (cp, None)
         ∧ is_Some (m_db m !! accountKey (cp_AccountID cp))
         ∧ AccountID ao = cp_AccountID cp
         ∧ keyIndex ao = cp_KeyIndex cp
         ∧ change ao = cp_Change cp)
  ∧ (outs = [] → loadAccountInfo m outs = []).
Proof.
  assert (Hbody : ∀ (ks : list string) cp result,
            (∀ ao, ao ∈ result →
               ∃ raw cp0 cp',
                 m_db m !! accountCPKey (sha3pool_Sum256 (ControlProgram (ao_rawOutput ao)))
                   = Some raw
                 ∧ json_Unmarshal_controlProgram raw cp0 = (cp', None)
                 ∧ is_Some (m_db m !! accountKey (cp_AccountID cp'))
                 ∧ AccountID ao = cp_AccountID cp'
                 ∧ keyIndex ao = cp_KeyIndex cp'
                 ∧ change ao = cp_Change cp') →
            ∀ ao, ao ∈ snd (foldl (loadAccountInfo_body (m_db m) (group_by_script outs))
                                  (cp, result) ks) →
               ∃ raw cp0 cp',
                 m_db m !! accountCPKey (sha3pool_Sum256 (ControlProgram (ao_rawOutput ao)))
                   = Some raw
                 ∧ json_Unmarshal_controlProgram raw cp0 = (cp', None)
                 ∧ is_Some (m_db m !! accountKey (cp_AccountID cp'))
                 ∧ AccountID ao = cp_AccountID cp'
                 ∧ keyIndex ao = cp_KeyIndex cp'
                 ∧ change ao = cp_Change cp').
  { induction ks as [|s ks IH]; intros cp result Hres; [done|].
    cbn [foldl]. unfold loadAccountInfo_body at 2, DB_Get.
    destruct (m_db m !! accountCPKey (sha3pool_Sum256 s)) as [raw|] eqn:Hraw;
      [|by apply IH].
    destruct (json_Unmarshal_controlProgram raw cp) as [cp' [err|]] eqn:Hdec; [by apply IH|].
    destruct (m_db m !! accountKey (cp_AccountID cp')) as [x|] eqn:Hacc; [|by apply IH].
    apply IH. intros ao [Hao|Hao]%elem_of_app; [by apply Hres|].
    apply list_elem_of_fmap in Hao as (o & -> & Ho). simpl.
    destruct (group_by_script outs !! s) as [l|] eqn:Hl; simpl in Ho; [|by inversion Ho].
    destruct (group_member outs l s o Hl Ho) as [_ ->].
    exists raw, cp, cp'. rewrite Hacc. by eauto 10. }
  split.
  - intros ao Hao. split; [by apply loadAccountInfo_raw in Hao|].
    unfold loadAccountInfo in Hao. eapply Hbody; [|exact Hao]. by inversion 1.
  - intros ->. destruct (loadAccountInfo m []) as [|ao l] eqn:Hl; [done|].
    assert (Hin : ao ∈ loadAccountInfo m []) by (rewrite Hl; by left).
    apply loadAccountInfo_raw in Hin. by inversion Hin.
Qed.

End BuildAndReverse.

Section LoopMore.
Context {Hash : Type} `{Countable Hash} {E : Externals Hash}.


Implicit Types (c : Chain Hash) (s : State Hash) (m : Manager Hash) (batch : Batch)
  (world : nat → Chain Hash) (block : Block Hash).

Lemma commitWalletInfo_spec (w : Wallet Hash) batch :
  match json_Marshal_WalletInfo (w_info w) with
  | inl err => commitWalletInfo w batch = (w, batch, [(LevelError, "save wallet info")])
  | inr raw =>
      commitWalletInfo w batch
      = (mkWallet (Batch_Write (batch ++ [OpSet walletkey raw]) (w_DB w)) (w_info w),
         Batch_after_Write (batch ++ [OpSet walletkey raw]), [])
  end.
Proof.
  destruct w as [d [h hash]]. unfold commitWalletInfo. simpl.
  by destruct (json_Marshal_WalletInfo _).
Qed.

Lemma step_frame c s :
  m_db (st_m (step c s)) = m_db (st_m s) ∧ st_log s `prefix_of` st_log (step c s).
Proof.
  unfold step. destruct (st_pc s) as [| | | | |block| |]; simpl.
  - by destruct (InMainChain c _ _).
  - destruct (GetBlockByHash c _) as [err|block]; simpl;
      [split; [done|by apply prefix_app_r]|].
    destruct (rollbackBlock _ _ _) as [[[m' batch'] log']|] eqn:Hr; simpl; [|done].
    apply rollbackBlock_spec in Hr as [-> _]. split; [done|by apply prefix_app_r].
  - destruct (commitWalletInfo _ _) as [[w batch] log]. simpl.
    split; [done|by apply prefix_app_r].
  - by destruct (GetBlockByHeight c _).
  - destruct (GetBlockByHeight c _); simpl; [split; [done|by apply prefix_app_r]|done].
  - case_decide; [|done].
    destruct (applyBlock _ _ _) as [[[m' batch'] log']|] eqn:Ha; simpl; [|done].
    apply applyBlock_spec in Ha as (batch1 & log1 & _ & _ & Hdb & _).
    split; [done|by apply prefix_app_r].
  - done.
  - done.
Qed.

Lemma step_ended c s : ended (st_pc s) = true → step c s = s.
Proof. unfold step. by destruct (st_pc s). Qed.

(** X16. In every execution of [WalletUpdate]: the account database is
    never written (it is what it was at the start), the log only grows,
    and once the function has returned or panicked nothing changes any
    more. *)
Theorem X16_WalletUpdate_frame world s0 (n : nat) :
  m_db (st_m (exec world n s0)) = m_db (st_m s0)
  ∧ st_log s0 `prefix_of` st_log (exec world n s0)
  ∧ (ended (st_pc (exec world n s0)) = true →
     ∀ k, n ≤ k → exec world k s0 = exec world n s0).
Proof.
  split; [|split].
  - induction n as [|n IH]; [done|]. simpl. by rewrite (proj1 (step_frame _ _)).
  - induction n as [|n IH]; [done|]. simpl.
    etrans; [exact IH|]. apply step_frame.
  - intros Hend k Hk. induction Hk as [|k Hk IH]; [done|].
    simpl. rewrite IH. by apply step_ended.
Qed.

Lemma step_record_is_checkpoint c s :
  (looking_forward (st_pc s) = true → record_is_checkpoint s) →
  looking_forward (st_pc (step c s)) = true → record_is_checkpoint (step c s).
Proof.
  unfold step, record_is_checkpoint, checkpoint, persisted.
  destruct (st_pc s) as [| | | | |block| |] eqn:Hpc; simpl; intros Hinv.
  - by destruct (InMainChain c _ _).
  - destruct (GetBlockByHash c _) as [err|block]; [done|].
    by destruct (rollbackBlock _ _ _) as [[[m' batch'] log']|].
  - pose proof (commitWalletInfo_spec (m_wallet (st_m s)) (st_batch s)) as Hc.
    destruct (json_Marshal_WalletInfo (w_info (m_wallet (st_m s)))) as [err|raw] eqn:Hm;
      rewrite Hc; simpl; intros _ raw'; rewrite Hm; [done|].
    intros [= <-]. rewrite Batch_Write_snoc. simpl. by rewrite lookup_insert_eq.
  - destruct (GetBlockByHeight c _); simpl; intros _; by apply Hinv.
  - destruct (GetBlockByHeight c _); simpl; [done|]. intros _. by apply Hinv.
  - case_decide; [|done].
    by destruct (applyBlock _ _ _) as [[[m' batch'] log']|].
  - by rewrite Hpc.
  - by rewrite Hpc.
Qed.

(** X17. In every execution that starts at LOOP: whenever [WalletUpdate]
    looks for the next block, waits for it, or tests its parent hash, the
    checkpoint record in the database is the marshalled checkpoint held in
    memory (if that checkpoint marshals at all): a block is only ever
    appended to a checkpoint that has been committed. *)
Theorem X17_looks_forward_from_a_committed_checkpoint world s0 (n : nat)
    (rawWallet : bytes) :
  st_pc s0 = pcLoop →
  looking_forward (st_pc (exec world n s0)) = true →
  json_Marshal_WalletInfo (checkpoint (exec world n s0)) = inr rawWallet →
  persisted (exec world n s0) !! walletkey = Some rawWallet.
Proof.
  intros Hstart Hpc Hm.
  assert (Hinv : looking_forward (st_pc (exec world n s0)) = true →
                 record_is_checkpoint (exec world n s0)).
  { clear Hpc Hm rawWallet. induction n as [|n IH].
    - simpl. by rewrite Hstart.
    - simpl. by apply step_record_is_checkpoint. }
  by apply Hinv.
Qed.

(** The steps of [WalletUpdate], place by place. *)
Lemma step_at_Loop c s :
  st_pc s = pcLoop →
  step c s = mkState (st_m s) (st_batch s) (st_log s)
               (if InMainChain c (wi_Height (checkpoint s)) (wi_Hash (checkpoint s))
                then pcCommit else pcGetBlockByHash).
Proof.
  intros Hpc. unfold step, checkpoint. rewrite Hpc. by destruct (InMainChain c _ _).
Qed.

Lemma step_at_Commit c s (raw : bytes) :
  st_pc s = pcCommit →
  json_Marshal_WalletInfo (checkpoint s) = inr raw →
  step c s = mkState (mkManager (m_db (st_m s))
                        (mkWallet (Batch_Write (st_batch s ++ [OpSet walletkey raw])
                                               (persisted s))
                                  (checkpoint s)))
                     (Batch_after_Write (st_batch s ++ [OpSet walletkey raw]))
                     (st_log s ++ []) pcGetBlockByHeight.
Proof.
  intros Hpc Hm. unfold step, checkpoint, persisted in *. rewrite Hpc.
  pose proof (commitWalletInfo_spec (m_wallet (st_m s)) (st_batch s)) as Hc.
  rewrite Hm in Hc. by rewrite Hc.
Qed.

Lemma step_at_GetBlockByHeight c s block :
  st_pc s = pcGetBlockByHeight →
  GetBlockByHeight c (wrap64 (wi_Height (checkpoint s) + 1)) = inr block →
  step c s = mkState (st_m s) (st_batch s) (st_log s) (pcLinkage block).
Proof. intros Hpc Hget. unfold step, checkpoint in *. by rewrite Hpc, Hget. Qed.

Lemma step_at_Linkage c s block m' batch' (log' : Log) :
  st_pc s = pcLinkage block →
  PreviousBlockHash block = wi_Hash (checkpoint s) →
  applyBlock (st_m s) (st_batch s) block = Some (m', batch', log') →
  step c s = mkState m' batch' (st_log s ++ log') pcLoop.
Proof.
  intros Hpc Hlink Ha. unfold step, checkpoint in *.
  by rewrite Hpc, decide_True, Ha by done.
Qed.

Lemma step_at_GetBlockByHash c s block m' batch' (log' : Log) :
  st_pc s = pcGetBlockByHash →
  GetBlockByHash c (wi_Hash (checkpoint s)) = inr block →
  rollbackBlock (st_m s) (st_batch s) block = Some (m', batch', log') →
  step c s = mkState m' batch' (st_log s ++ log') pcLoop.
Proof.
  intros Hpc Hget Hr. unfold step, checkpoint in *. by rewrite Hpc, Hget, Hr.
Qed.

Lemma applyBlock_eq m batch block batch1 (log1 : Log) (raw1 : bytes) :
  BuildAccountUTXOs (set_checkpoint m (Height block) (Block_Hash block)) batch block
    = Some (batch1, log1) →
  json_Marshal_WalletInfo (mkWalletInfo (Height block) (Block_Hash block)) = inr raw1 →
  applyBlock m batch block
  = Some (mkManager (m_db m)
            (mkWallet (Batch_Write (batch1 ++ [OpSet walletkey raw1]) (w_DB (m_wallet m)))
                      (mkWalletInfo (Height block) (Block_Hash block))),
          Batch_after_Write (batch1 ++ [OpSet walletkey raw1]), log1 ++ []).
Proof.
  intros Hbuild Hm. unfold applyBlock. cbn zeta. rewrite Hbuild.
  pose proof (commitWalletInfo_spec
                (m_wallet (set_checkpoint m (Height block) (Block_Hash block))) batch1) as Hc.
  cbn [w_info m_wallet set_checkpoint] in Hc. rewrite Hm in Hc.
  cbn [mbind option_bind]. cbn [m_wallet set_checkpoint]. by rewrite Hc.
Qed.

(** What [BuildAccountUTXOs] stages depends on the account database only,
    and goes after what the batch holds. *)
Lemma Build_batch_app m m' batch b :
  m_db m' = m_db m →
  BuildAccountUTXOs m' batch b
  = '(staged, log) ← BuildAccountUTXOs m [] b; Some (batch ++ staged, log).
Proof.
  intros Hdb. rewrite !Build_unfold.
  destruct (createdOuts b) as [outs|]; [|done]. cbn [mbind option_bind].
  assert (Hload : loadAccountInfo m' outs = loadAccountInfo m outs).
  { unfold loadAccountInfo. by rewrite Hdb. }
  rewrite Hload. set (aos := loadAccountInfo m outs).
  set (dels := OpDelete ∘ utxo_key <$> prevoutDBKeys (Transactions b)).
  assert (Hsnd : ∀ batch0, snd (upsertConfirmedAccountOutputs aos b batch0)
                           = snd (upsertConfirmedAccountOutputs aos b [])).
  { intros batch0. generalize (@nil BatchOp). revert batch0.
    induction aos as [|ao aos IH]; intros b1 b2; [done|].
    cbn [upsertConfirmedAccountOutputs].
    destruct (json_Marshal_UTXO (utxo_of ao)); [done|]. apply IH. }
  rewrite (upsert_fst_app aos b (batch ++ dels)).
  rewrite (upsert_fst_app aos b ([] ++ dels)).
  rewrite (Hsnd (batch ++ dels)), (Hsnd ([] ++ dels)).
  cbn [fst snd]. by rewrite <-!app_assoc.
Qed.

(** X18. One forward pass. From LOOP, when the chain confirms the
    checkpoint, the checkpoint marshals, the chain then has a block for
    the next height whose parent hash is the checkpoint's, every output of
    the block has a result identifier and the block's checkpoint marshals:
    four steps later [WalletUpdate] is back at LOOP, the checkpoint in
    memory and the checkpoint record in the database are the block's, and
    the database is the old one with the staged operations, the old
    checkpoint record, what [BuildAccountUTXOs] staged and the new
    checkpoint record written in that order. *)
Theorem X18_forward_pass (c0 c1 c2 c3 : Chain Hash) s block (raw0 raw1 : bytes) :
  st_pc s = pcLoop →
  InMainChain c0 (wi_Height (checkpoint s)) (wi_Hash (checkpoint s)) = true →
  json_Marshal_WalletInfo (checkpoint s) = inr raw0 →
  GetBlockByHeight c2 (wrap64 (wi_Height (checkpoint s) + 1)) = inr block →
  PreviousBlockHash block = wi_Hash (checkpoint s) →
  indexes_in_range block →
  json_Marshal_WalletInfo (mkWalletInfo (Height block) (Block_Hash block)) = inr raw1 →
  let s' := step c3 (step c2 (step c1 (step c0 s))) in
  st_pc s' = pcLoop
  ∧ checkpoint s' = mkWalletInfo (Height block) (Block_Hash block)
  ∧ persisted s' !! walletkey = Some raw1
  ∧ ∃ staged log,
      BuildAccountUTXOs (st_m s) [] block = Some (staged, log)
      ∧ persisted s' = Batch_Write (st_batch s ++ [OpSet walletkey raw0] ++ staged
                                    ++ [OpSet walletkey raw1]) (persisted s).
Proof.
  intros Hpc Hmain Hm0 Hget Hlink Hwf Hm1. cbn zeta.
  rewrite (step_at_Loop c0 s Hpc), Hmain.
  set (s1 := mkState (st_m s) (st_batch s) (st_log s) pcCommit).
  rewrite (step_at_Commit c1 s1 raw0 eq_refl Hm0).
  set (s2 := mkState _ _ _ pcGetBlockByHeight).
  rewrite (step_at_GetBlockByHeight c2 s2 block eq_refl Hget).
  set (s3 := mkState _ _ _ (pcLinkage block)).
  destruct (Build_runs (st_m s) [] block Hwf) as [[staged log] Hbuild].
  assert (Hbuild3 : BuildAccountUTXOs
                      (set_checkpoint (st_m s3) (Height block) (Block_Hash block))
                      (st_batch s3) block
                    = Some (st_batch s3 ++ staged, log)).
  { rewrite (Build_batch_app (st_m s) (set_checkpoint (st_m s3) _ _) (st_batch s3) block
               eq_refl).
    by rewrite Hbuild. }
  rewrite (step_at_Linkage c3 s3 block _ _ _ eq_refl Hlink
             (applyBlock_eq (st_m s3) (st_batch s3) block _ _ raw1 Hbuild3 Hm1)).
  unfold checkpoint, persisted.
  cbn [st_pc st_m m_wallet w_info w_DB st_batch s1 s2 s3].
  split; [done|]. split; [done|]. split.
  { rewrite Batch_Write_snoc. simpl. by rewrite lookup_insert_eq. }
  exists staged, log. split; [done|].
  unfold persisted. unfold Batch_after_Write. destruct Batch_keeps_written.
  - rewrite <-!app_assoc. rewrite (app_assoc (st_batch s) [OpSet walletkey raw0]).
    rewrite Batch_Write_replay. rewrite <-Batch_Write_app. by rewrite <-!app_assoc.
  - rewrite app_nil_l. rewrite <-Batch_Write_app. by rewrite <-!app_assoc.
Qed.

(** X19. One block rolled back. From LOOP, when the chain does not confirm
    the checkpoint, gives the block of the checkpoint's hash (with a result
    identifier for every output), then confirms the block's parent, and the
    parent checkpoint marshals: four steps later [WalletUpdate] looks for
    the next block, the checkpoint in memory and in the database is the
    parent's, and the database was written once, at the end, with what was
    staged before, what [ReverseAccountUTXOs] staged and the checkpoint
    record; it was untouched until then. *)
Theorem X19_rollback_pass (c0 c1 c2 c3 : Chain Hash) s block (rawParent : bytes) :
  st_pc s = pcLoop →
  InMainChain c0 (wi_Height (checkpoint s)) (wi_Hash (checkpoint s)) = false →
  GetBlockByHash c1 (wi_Hash (checkpoint s)) = inr block →
  indexes_in_range block →
  InMainChain c2 (wrap64 (Height block - 1)) (PreviousBlockHash block) = true →
  json_Marshal_WalletInfo (mkWalletInfo (wrap64 (Height block - 1))
                                        (PreviousBlockHash block)) = inr rawParent →
  let s3 := step c2 (step c1 (step c0 s)) in
  let s' := step c3 s3 in
  persisted s3 = persisted s
  ∧ st_pc s' = pcGetBlockByHeight
  ∧ checkpoint s' = mkWalletInfo (wrap64 (Height block - 1)) (PreviousBlockHash block)
  ∧ persisted s' !! walletkey = Some rawParent
  ∧ ∃ batch' log,
      ReverseAccountUTXOs (st_m s) (st_batch s) block = Some (batch', log)
      ∧ persisted s' = Batch_Write (batch' ++ [OpSet walletkey rawParent]) (persisted s).
Proof.
  intros Hpc Hmain Hget Hwf Hparent Hm. cbn zeta.
  rewrite (step_at_Loop c0 s Hpc), Hmain.
  set (s1 := mkState (st_m s) (st_batch s) (st_log s) pcGetBlockByHash).
  assert (Hrev : is_Some (ReverseAccountUTXOs (st_m s) (st_batch s) block)).
  { unfold ReverseAccountUTXOs.
    destruct (upsertConfirmedAccountOutputs _ _ _) as [batch1 [err|]]; [by eexists|].
    rewrite deleteNew_block by done. by eexists. }
  destruct Hrev as [[batch' log'] Hrev].
  assert (Hroll : rollbackBlock (st_m s1) (st_batch s1) block
                  = Some (set_checkpoint (st_m s) (wrap64 (Height block - 1))
                                         (PreviousBlockHash block),
                          batch', log' ++ [(LevelInfo, "start rollback this block")])).
  { unfold rollbackBlock. cbn [s1 st_m st_batch]. by rewrite Hrev. }
  rewrite (step_at_GetBlockByHash c1 s1 block _ _ _ eq_refl Hget Hroll).
  set (s2 := mkState _ _ _ pcLoop).
  assert (Hmain2 : InMainChain c2 (wi_Height (checkpoint s2)) (wi_Hash (checkpoint s2))
                   = true) by exact Hparent.
  rewrite (step_at_Loop c2 s2 eq_refl), Hmain2.
  set (s3 := mkState _ _ _ pcCommit).
  rewrite (step_at_Commit c3 s3 rawParent eq_refl Hm).
  unfold checkpoint, persisted.
  cbn [s3 st_pc st_m st_batch set_checkpoint m_wallet w_info w_DB m_db].
  split; [done|]. split; [done|]. split; [done|]. split.
  { rewrite Batch_Write_snoc. simpl. by rewrite lookup_insert_eq. }
  by exists batch', log'.
Qed.

End LoopMore.

Section AnnotatedFacts.

Variable XPub : Type.
Variable Tags : Type.
Variable json_Marshal_Tags : Tags → error + bytes.
Variable signers_Path : Account XPub Tags → list bytes.
Variable XPub_Derive : XPub → list bytes → XPub.

Lemma foldl_append_each {A B : Type} (f : A → B) (l : list A) (acc : list B) :
  foldl (λ acc x, acc ++ [f x]) acc l = acc ++ (f <$> l).
Proof.
  revert acc. induction l as [|x l IH]; intros acc; simpl.
  - by rewrite app_nil_r.
  - rewrite IH. by rewrite <-app_assoc.
Qed.

(** X20. [Annotated] fails exactly when the tags do not marshal, with that
    error. Otherwise identifier, alias and quorum are the account's; there
    is one key for each extended public key of the account, in order, with
    that key as root, the key derived from it along the account's path as
    account key, and that same path as derivation path; the tags are the
    marshalled tags, or the empty JSON object when marshalling gave no
    bytes, so never empty. [indexAnnotatedAccount] without an indexer
    returns nil and saves nothing, even for an account whose tags do not
    marshal; with an indexer it saves the annotated account once and
    returns the saver's result, or returns the error of [Annotated] and
    saves nothing. *)
Theorem X20_Annotated_keys_follow_the_xpubs (a : Account XPub Tags) :
  match Annotated XPub Tags json_Marshal_Tags signers_Path XPub_Derive a with
  | inl err => json_Marshal_Tags (acc_Tags _ _ a) = inl err
  | inr aa =>
      aa_ID _ aa = acc_ID _ _ a ∧ aa_Alias _ aa = acc_Alias _ _ a
      ∧ aa_Quorum _ aa = acc_Quorum _ _ a
      ∧ RootXPub _ <$> aa_Keys _ aa = acc_XPubs _ _ a
      ∧ Forall (λ k, AccountXPub _ k = XPub_Derive (RootXPub _ k) (signers_Path a)
                     ∧ AccountDerivationPath _ k = signers_Path a) (aa_Keys _ aa)
      ∧ aa_Tags _ aa ≠ EmptyString
      ∧ ∃ tags, json_Marshal_Tags (acc_Tags _ _ a) = inr tags
                ∧ aa_Tags _ aa = (if decide (tags = EmptyString) then emptyJSONObject
                                  else tags)
  end
  ∧ indexAnnotatedAccount XPub Tags json_Marshal_Tags signers_Path XPub_Derive None a
    = (None, [])
  ∧ ∀ SaveAnnotatedAccount,
      indexAnnotatedAccount XPub Tags json_Marshal_Tags signers_Path XPub_Derive
        (Some SaveAnnotatedAccount) a
      = match Annotated XPub Tags json_Marshal_Tags signers_Path XPub_Derive a with
        | inl err => (Some err, [])
        | inr aa => (SaveAnnotatedAccount aa, [aa])
        end.
Proof.
  split; [|split; [done|done]].
  unfold Annotated.
  destruct (json_Marshal_Tags (acc_Tags _ _ a)) as [err|tags] eqn:Hm; [done|]. simpl.
  rewrite !foldl_append_each. simpl.
  split; [done|]. split; [done|]. split; [done|]. split.
  { rewrite <-list_fmap_compose. simpl. apply list_fmap_id. }
  split.
  { apply Forall_fmap, Forall_forall. intros xpub _. simpl. split; [done|].
    apply list_fmap_id. }
  split.
  - destruct tags; simpl; done.
  - exists tags. split; [done|]. by destruct tags.
Qed.

End AnnotatedFacts.

(* ===================================================================== *)
(** * The further properties in the small concrete world                  *)
(* ===================================================================== *)

Section ConcreteMore.
Import vmutil vmparse.
Local Open Scope Z_scope.

(** The program built for two keys and quorum 1, and a program of eleven
    instructions without data, which parses to the empty slice of keys (not
    nil) and quorum 0. *)
Lemma X4_witness :
  (ParseP2SPMultiSigProgram toy_ParseProgram toy_AsInt64 32 toy_program
   = Some (Some [toy_key1; toy_key2], 1, None)
   ∧ ((Some [toy_key1; toy_key2] = None ∧ 1 = 0)
      ∨ ∃ keys pops,
          Some [toy_key1; toy_key2] = Some keys
          ∧ toy_ParseProgram toy_program = inr pops
          ∧ (length keys + 10 ≤ length pops)%nat ∧ (11 ≤ length pops)%nat
          ∧ Forall (key_size_ok 32) keys
          ∧ ((keys = [] ∧ 1 = 0) ∨ 0 < 1 ≤ Z.of_nat (length keys))))
  ∧ (ParseP2SPMultiSigProgram toy_ParseProgram toy_AsInt64 32 toy_eleven
     = Some (Some [], 0, None)
     ∧ ((Some [] =@{option (list bytes)} None ∧ 0 = 0)
        ∨ ∃ keys pops,
            Some [] = Some keys
            ∧ toy_ParseProgram toy_eleven = inr pops
            ∧ (length keys + 10 ≤ length pops)%nat ∧ (11 ≤ length pops)%nat
            ∧ Forall (key_size_ok 32) keys
            ∧ ((keys = [] ∧ 0 = 0) ∨ 0 < 0 ≤ Z.of_nat (length keys)))).
Proof.
  assert (Hrun : ParseP2SPMultiSigProgram toy_ParseProgram toy_AsInt64 32 toy_program
                 = Some (Some [toy_key1; toy_key2], 1, None)) by (vm_compute; reflexivity).
  assert (Hrun11 : ParseP2SPMultiSigProgram toy_ParseProgram toy_AsInt64 32 toy_eleven
                   = Some (Some [], 0, None)) by (vm_compute; reflexivity).
  split; (split; [done|]).
  - exact (X4_ParseP2SPMultiSigProgram_result toy_ParseProgram toy_AsInt64 32 toy_program
             (Some [toy_key1; toy_key2]) 1 None Hrun).
  - exact (X4_ParseP2SPMultiSigProgram_result toy_ParseProgram toy_AsInt64 32 toy_eleven
             (Some []) 0 None Hrun11).
Defined.

Lemma X5_witness :
  ParseP2SPMultiSigProgram toy_ParseProgram toy_AsInt64 32 toy_program
  = Some (if decide (Forall (key_size_ok 32)
                       (inst_Data <$> (toy_inst <$> [IData toy_key1; IData toy_key2])))
          then (Some (inst_Data <$> (toy_inst <$> [IData toy_key1; IData toy_key2])), 1, None)
          else (None, 0, None)).
Proof.
  apply (X5_ParseP2SPMultiSigProgram_reads_from_the_end toy_ParseProgram toy_AsInt64 32
           toy_program
           (toy_inst <$> [IOp OP_DUP; IOp OP_TOALTSTACK; IOp OP_SHA3])
           (toy_inst <$> [IData toy_key1; IData toy_key2])
           (toy_inst (IInt64 1)) (toy_inst (IInt64 2))
           (toy_inst (IOp OP_CHECKMULTISIG)) (toy_inst (IOp OP_VERIFY))
           (toy_inst (IOp OP_FROMALTSTACK)) (toy_inst (IInt64 0))
           (toy_inst (IOp OP_CHECKPREDICATE)) 1).
  - vm_compute. reflexivity.
  - simpl. lia.
  - simpl. lia.
  - vm_compute. reflexivity.
  - vm_compute. reflexivity.
  - unfold bad_params. simpl. lia.
Defined.

Lemma X6_witness :
  P2SPMultiSigProgram toy_Build [toy_key1; toy_key2] 1 = inr toy_program
  ∧ ParseP2SPMultiSigProgram toy_ParseProgram toy_AsInt64 32 toy_program
    = Some (if decide (Forall (key_size_ok 32) [toy_key1; toy_key2])
            then (Some [toy_key1; toy_key2], 1, None)
            else (None, 0, None)).
Proof.
  assert (Hbuild : P2SPMultiSigProgram toy_Build [toy_key1; toy_key2] 1 = inr toy_program)
    by (vm_compute; reflexivity).
  split; [exact Hbuild|].
  apply (X6_P2SPMultiSigProgram_parses_back toy_ParseProgram toy_AsInt64 32
           toy_Build toy_inst [toy_key1; toy_key2] 1 toy_program Hbuild).
  - vm_compute. reflexivity.
  - intros d. reflexivity.
  - vm_compute. reflexivity.
  - vm_compute. reflexivity.
Defined.

Lemma X8_witness :
  json_Marshal_WalletInfo (w_info ex_wallet_h) = inr "I@h"
  ∧ w_DB (fst (fst (commitWalletInfo ex_wallet_h ex_batch_h)))
    = <[walletkey := "I@h"]> (Batch_Write ex_batch_h (w_DB ex_wallet_h)).
Proof.
  assert (Hm : json_Marshal_WalletInfo (w_info ex_wallet_h) = inr "I@h")
    by (vm_compute; reflexivity).
  split; [exact Hm|].
  exact (proj1 (X8_commitWalletInfo_writes_and_repeats ex_wallet_h ex_batch_h "I@h" Hm)).
Defined.

Lemma X12_witness :
  ∃ outs batch',
    createdOuts ex_block2 = Some outs
    ∧ BuildAccountUTXOs ex_m1 [] ex_block2 = Some (batch', [])
    ∧ (∀ k, k ∈ ao_key <$> loadAccountInfo ex_m1 outs →
            is_Some (Batch_Write batch' (w_DB (m_wallet ex_m1)) !! k)).
Proof.
  eexists _, _.
  assert (Houts : createdOuts ex_block2 = Some _) by (vm_compute; reflexivity).
  assert (Hbuild : BuildAccountUTXOs ex_m1 [] ex_block2 = Some (_, []))
    by (vm_compute; reflexivity).
  split; [exact Houts|]. split; [exact Hbuild|].
  exact (proj1 (X12_store_after_forward_application ex_m1 [] ex_block2 _ _
                  (w_DB (m_wallet ex_m1)) Houts Hbuild)).
Defined.

Lemma X17_witness :
  st_pc ex_start = pcLoop
  ∧ looking_forward (st_pc (exec (λ _, ex_chain [ex_block1]) 2 ex_start)) = true
  ∧ persisted (exec (λ _, ex_chain [ex_block1]) 2 ex_start) !! walletkey = Some "@".
Proof.
  assert (Hpc : looking_forward (st_pc (exec (λ _, ex_chain [ex_block1]) 2 ex_start)) = true)
    by (vm_compute; reflexivity).
  assert (Hm : json_Marshal_WalletInfo
                 (checkpoint (exec (λ _, ex_chain [ex_block1]) 2 ex_start)) = inr "@")
    by (vm_compute; reflexivity).
  split; [reflexivity|]. split; [exact Hpc|].
  exact (X17_looks_forward_from_a_committed_checkpoint (λ _, ex_chain [ex_block1]) ex_start 2
           "@" eq_refl Hpc Hm).
Defined.

Lemma X18_witness :
  let c := ex_chain [ex_block1] in
  let s' := step c (step c (step c (step c ex_start))) in
  st_pc s' = pcLoop
  ∧ checkpoint s' = mkWalletInfo 1 (ex_Block_Hash ex_block1)
  ∧ persisted s' !! walletkey = Some "I@B()T1".
Proof.
  cbn zeta.
  assert (Hwf : indexes_in_range ex_block1) by (repeat constructor).
  destruct (X18_forward_pass (ex_chain [ex_block1]) (ex_chain [ex_block1])
              (ex_chain [ex_block1]) (ex_chain [ex_block1]) ex_start ex_block1
              "@" "I@B()T1")
    as (Hpc & Hck & Hrec & _);
    try (vm_compute; reflexivity); [exact Hwf|].
  split; [exact Hpc|]. split; [exact Hck|exact Hrec].
Defined.

Lemma X19_witness :
  let s := mkState ex_m1 [] [] pcLoop in
  let s' := step ex_chain_fork (step ex_chain_fork (step ex_chain_fork
              (step ex_chain_fork s))) in
  st_pc s' = pcGetBlockByHeight
  ∧ checkpoint s' = mkWalletInfo 0 EmptyString
  ∧ persisted s' !! walletkey = Some "@".
Proof.
  cbn zeta.
  assert (Hwf : indexes_in_range ex_block1) by (repeat constructor).
  destruct (X19_rollback_pass ex_chain_fork ex_chain_fork ex_chain_fork ex_chain_fork
              (mkState ex_m1 [] [] pcLoop) ex_block1 "@")
    as (_ & Hpc & Hck & Hrec & _);
    try (vm_compute; reflexivity); [exact Hwf|].
  split; [exact Hpc|]. split; [exact Hck|exact Hrec].
Defined.

End ConcreteMore.
